(** * read_table: a shallow embedding of the line parser of read_table_cpp.h

    The development follows the header top to bottom: error codes, the
    [line_parser] cursor with its pre- and post-checks, the field readers
    ([read_skip], [read_string2], the integer readers), the [read_next]
    dispatch with the variadic [read], and the line acquisition of
    [read_table2].

    Conventions.  [size_t] positions are [nat]: they index the line buffer
    and never exceed its length by the loops' guards.  Integer values are
    [Z]; the data model is LP64 ([long] has 64 bits), which is what the
    [constexpr] tests of the 64-bit readers select.  Characters are [ascii],
    the line buffer is a [string], and [buf[pos]] at [pos = buf.size()] is
    the terminating NUL, as C++11 guarantees.  A reader that assigns through
    a reference returns the assigned value as [Some v]; [None] means the
    caller's variable was left alone. *)

From Stdlib Require Import ZArith List String Ascii Bool Arith Lia.
Import ListNotations.

Local Open Scope string_scope.

(** ** Error codes *)

Inductive read_table_errors : Type :=
| T_OK | T_EOF | T_EOL | T_MISSING | T_FORMAT | T_OVERFLOW | T_NAN | T_TYPE
| T_COPIED | T_ERROR_FOPEN | T_READ_ERROR.

(** The values of [errno] that the checks look at. *)
Inductive errno_t : Type := E_NONE | EINVAL | ERANGE.

(** ** Characters and the line buffer *)

Definition NUL : ascii := "000"%char.
Definition TAB : ascii := "009"%char.
Definition NL : ascii := "010"%char.
Definition SPACE : ascii := " "%char.

(** [buf[i]] of a [std::string]: the character, or NUL at the end. *)
Definition char_at (s : string) (i : nat) : ascii :=
  match String.get i s with
  | Some c => c
  | None => NUL
  end.

(** [c == ' ' || c == '\t'] *)
Definition is_blank (c : ascii) : bool :=
  Ascii.eqb c SPACE || Ascii.eqb c TAB.

(** [if(ch)] on a [char] option such as [delim] or [comment]. *)
Definition is_set (c : ascii) : bool := negb (Ascii.eqb c NUL).

(** The loop [for(; pos < len; pos++) if(stop(buf[pos])) break;] run for at
    most [fuel] iterations; [scan] gives it the [len - pos] iterations the
    guard allows. *)
Fixpoint scan_loop (stop : ascii -> bool) (s : string) (fuel pos : nat) : nat :=
  match fuel with
  | O => pos
  | S fuel' =>
      if stop (char_at s pos) then pos
      else scan_loop stop s fuel' (S pos)
  end.

Definition scan (stop : ascii -> bool) (s : string) (pos : nat) : nat :=
  scan_loop stop s (String.length s - pos) pos.

Definition skip_blanks (s : string) (pos : nat) : nat :=
  scan (fun c => negb (is_blank c)) s pos.

(** ** The cursor *)

Record line_parser : Type := mk_line_parser {
  buf : string;
  pos : nat;
  col : nat;
  base : Z;
  last_error : read_table_errors;
  delim : ascii;
  comment : ascii;
  allow_nan_inf : bool
}.

Definition with_pos (n : nat) (p : line_parser) : line_parser :=
  mk_line_parser (buf p) n (col p) (base p) (last_error p)
                 (delim p) (comment p) (allow_nan_inf p).

Definition with_col (n : nat) (p : line_parser) : line_parser :=
  mk_line_parser (buf p) (pos p) n (base p) (last_error p)
                 (delim p) (comment p) (allow_nan_inf p).

Definition with_error (e : read_table_errors) (p : line_parser) : line_parser :=
  mk_line_parser (buf p) (pos p) (col p) (base p) e
                 (delim p) (comment p) (allow_nan_inf p).

Definition with_buf (s : string) (p : line_parser) : line_parser :=
  mk_line_parser s (pos p) (col p) (base p) (last_error p)
                 (delim p) (comment p) (allow_nan_inf p).

(** [line_parser_params()] followed by [line_parser(par, text)]. *)
Definition new_line_parser (text : string) : line_parser :=
  mk_line_parser text 0 0 10%Z T_OK NUL NUL true.

Definition set_delim (d : ascii) (p : line_parser) : line_parser :=
  mk_line_parser (buf p) (pos p) (col p) (base p) (last_error p)
                 d (comment p) (allow_nan_inf p).

Definition set_comment (c : ascii) (p : line_parser) : line_parser :=
  mk_line_parser (buf p) (pos p) (col p) (base p) (last_error p)
                 (delim p) c (allow_nan_inf p).

Definition set_line (text : string) (p : line_parser) : line_parser :=
  mk_line_parser text 0 0 (base p) T_OK
                 (delim p) (comment p) (allow_nan_inf p).

(** The errors [reset_pos] refuses to clear. *)
Definition unrecoverable (e : read_table_errors) : bool :=
  match e with
  | T_COPIED | T_EOF | T_ERROR_FOPEN | T_READ_ERROR => true
  | _ => false
  end.

Definition reset_pos (p : line_parser) : line_parser :=
  if unrecoverable (last_error p) then p
  else with_error T_OK (with_col 0 (with_pos 0 p)).

(** [pos == len || buf[pos] == '\n' || (comment && buf[pos] == comment)] *)
Definition at_line_end (p : line_parser) (i : nat) : bool :=
  Nat.eqb i (String.length (buf p))
  || Ascii.eqb (char_at (buf p) i) NL
  || (is_set (comment p) && Ascii.eqb (char_at (buf p) i) (comment p)).

(** ** Pre- and post-check *)

(** The guard on top of [read_table_pre_check]. *)
Definition pre_check_blocked (e : read_table_errors) : bool :=
  match e with
  | T_EOF | T_EOL | T_COPIED | T_READ_ERROR | T_ERROR_FOPEN => true
  | _ => false
  end.

Definition read_table_pre_check (advance_pos : bool) (p : line_parser)
  : bool * line_parser :=
  if pre_check_blocked (last_error p) then (false, p)
  else
    let old_pos := pos p in
    let p1 := with_pos (skip_blanks (buf p) (pos p)) p in
    if at_line_end p1 (pos p1) then
      let p2 := with_error T_EOL p1 in
      (false, if advance_pos then p2 else with_pos old_pos p2)
    else if is_set (delim p1) && Ascii.eqb (char_at (buf p1) (pos p1)) (delim p1) then
      let p2 := with_error T_MISSING p1 in
      (false, if advance_pos then p2 else with_pos old_pos p2)
    else (true, p1).

(** The loop of the post-check: it also records whether a blank was seen. *)
Fixpoint blanks_loop (s : string) (fuel pos : nat) (have_blank : bool)
  : nat * bool :=
  match fuel with
  | O => (pos, have_blank)
  | S fuel' =>
      if negb (is_blank (char_at s pos)) then (pos, have_blank)
      else blanks_loop s fuel' (S pos) true
  end.

(** [c2] is the end pointer of the conversion, as an offset into [buf], and
    [e] the value of [errno] after it. *)
Definition read_table_post_check (c2 : nat) (e : errno_t) (p : line_parser)
  : bool * line_parser :=
  match e with
  | EINVAL => (false, with_error T_FORMAT p)
  | _ =>
    if Nat.eqb c2 (pos p) then (false, with_error T_FORMAT p)
    else
      match e with
      | ERANGE => (false, with_error T_OVERFLOW p)
      | _ =>
        let '(pos1, have_blank) :=
          blanks_loop (buf p) (String.length (buf p) - c2) c2 false in
        let p1 := with_error T_OK (with_pos pos1 p) in
        if at_line_end p1 pos1 then (true, p1)
        else if negb (is_set (delim p1)) && negb have_blank then
          (false, with_error T_FORMAT p1)
        else if is_set (delim p1) then
          if negb (Ascii.eqb (char_at (buf p1) pos1) (delim p1)) then
            (false, with_error T_FORMAT p1)
          else (true, with_col (S (col p1)) (with_pos (S pos1) p1))
        else (true, with_col (S (col p1)) p1)
      end
  end.

(** ** Skipping and string fields *)

(** [read_skip] has no [advance_pos] parameter and no guard on
    [last_error]. *)
Definition read_skip (p : line_parser) : bool * line_parser :=
  let len := String.length (buf p) in
  if is_set (delim p) then
    let pos1 := scan (fun c => Ascii.eqb c (delim p)) (buf p) (pos p) in
    let p1 := with_pos pos1 p in
    if Nat.eqb pos1 len then (false, with_error T_EOL p1)
    else (true, with_error T_OK (with_col (S (col p1)) (with_pos (S pos1) p1)))
  else
    let pos1 := skip_blanks (buf p) (pos p) in
    let p1 := with_pos pos1 p in
    if at_line_end p1 pos1 then (false, with_error T_EOL p1)
    else
      let pos2 :=
        scan (fun c => is_blank c || Ascii.eqb c NL
                       || (is_set (comment p) && Ascii.eqb c (comment p)))
             (buf p) pos1 in
      (true, with_error T_OK (with_col (S (col p1)) (with_pos pos2 p1))).

(** The guard of [read_string2] in delimiter mode: [T_COPIED] is not in
    it. *)
Definition string_delim_blocked (e : read_table_errors) : bool :=
  match e with
  | T_EOF | T_EOL | T_READ_ERROR | T_ERROR_FOPEN => true
  | _ => false
  end.

(** [pos1] is returned as [Some (first, second)] when it was assigned. *)
Definition read_string2 (advance_pos : bool) (p : line_parser)
  : bool * line_parser * option (nat * nat) :=
  let len := String.length (buf p) in
  let old_pos := pos p in
  let restore (q : line_parser) :=
    if advance_pos then q else with_pos old_pos q in
  if is_set (delim p) then
    if string_delim_blocked (last_error p) then (false, p, None)
    else
      let p1 := pos p in
      let pos1 :=
        scan (fun c => Ascii.eqb c (delim p) || Ascii.eqb c NL
                       || (is_set (comment p) && Ascii.eqb c (comment p)))
             (buf p) (pos p) in
      let q :=
        if Nat.ltb pos1 len && Ascii.eqb (char_at (buf p) pos1) (delim p)
        then with_pos (S pos1) p
        else with_error T_EOL (with_pos pos1 p) in
      (true, restore q, Some (p1, pos1 - p1))
  else
    let '(ok, q0) := read_table_pre_check advance_pos p in
    if negb ok then (false, q0, None)
    else
      let p1 := pos q0 in
      let pos1 :=
        scan (fun c => is_blank c || Ascii.eqb c NL
                       || (is_set (comment p) && Ascii.eqb c (comment p)))
             (buf q0) (pos q0) in
      (true, restore (with_pos pos1 q0), Some (p1, pos1 - p1)).

(** [read_string] copies the field out of the buffer;
    [read_string_view] and [read_string_view_custom] return the pair. *)
Definition read_string (advance_pos : bool) (p : line_parser)
  : bool * line_parser * option string :=
  let '(ok, q, pos1) := read_string2 advance_pos p in
  (ok, q,
   match pos1 with
   | Some (first, second) =>
       if ok then Some (String.substring first second (buf q)) else None
   | None => None
   end).

Definition read_string_view (advance_pos : bool) (p : line_parser)
  : bool * line_parser * option (nat * nat) :=
  let '(ok, q, pos1) := read_string2 advance_pos p in
  (ok, q, if ok then pos1 else None).

(** ** The C library's integer conversions

    [strtol] and [strtoul] belong to libc, not to this repository; they
    are written out here from ISO C 7.22.1.4 so that the readers can be
    run on concrete lines.  The conversion reads the NUL-terminated text
    [buf.c_str() + start]. *)

Definition LONG_MAX : Z := (9223372036854775807)%Z.
Definition LONG_MIN : Z := (-9223372036854775808)%Z.
Definition ULONG_MAX : Z := (18446744073709551615)%Z.
Definition INT64_MAX : Z := (9223372036854775807)%Z.
Definition INT64_MIN : Z := (-9223372036854775808)%Z.
Definition UINT64_MAX : Z := (18446744073709551615)%Z.
Definition INT32_MAX : Z := (2147483647)%Z.
Definition INT32_MIN : Z := (-2147483648)%Z.
Definition UINT32_MAX : Z := (4294967295)%Z.
Definition INT16_MAX : Z := (32767)%Z.
Definition INT16_MIN : Z := (-32768)%Z.
Definition UINT16_MAX : Z := (65535)%Z.

Definition code (c : ascii) : nat := nat_of_ascii c.

Definition in_range (lo hi n : nat) : bool := Nat.leb lo n && Nat.leb n hi.

Definition isdigit (c : ascii) : bool := in_range 48 57 (code c).
Definition isupper (c : ascii) : bool := in_range 65 90 (code c).
Definition islower (c : ascii) : bool := in_range 97 122 (code c).
(** [isalnum] in the "C" locale. *)
Definition isalnum (c : ascii) : bool := isdigit c || isupper c || islower c.
Definition isspace (c : ascii) : bool :=
  Nat.eqb (code c) 32 || in_range 9 13 (code c).

Definition digit_value (c : ascii) : option Z :=
  if isdigit c then Some (Z.of_nat (code c) - 48)%Z
  else if islower c then Some (Z.of_nat (code c) - 87)%Z
  else if isupper c then Some (Z.of_nat (code c) - 55)%Z
  else None.

Definition is_digit_in (b : Z) (c : ascii) : bool :=
  match digit_value c with
  | Some d => Z.ltb d b
  | None => false
  end.

(** Accumulates the digits of radix [b] from [pos] on; returns the
    magnitude and the position of the first character that is no digit. *)
Fixpoint digits_loop (b : Z) (s : string) (fuel pos : nat) (acc : Z) : Z * nat :=
  match fuel with
  | O => (acc, pos)
  | S fuel' =>
      match digit_value (char_at s pos) with
      | Some d =>
          if Z.ltb d b then digits_loop b s fuel' (S pos) (acc * b + d)%Z
          else (acc, pos)
      | None => (acc, pos)
      end
  end.

Record conversion : Type := mk_conversion {
  conv_value : Z;
  conv_end : nat;
  conv_errno : errno_t
}.

(** The subject sequence: white space, an optional sign, an optional
    [0x] for radix 16, the digits.  Returns the sign, the magnitude and
    the end position, or [None] when there is no digit. *)
Definition subject_sequence (s : string) (start : nat) (b : Z)
  : option (bool * Z * nat) :=
  let i := scan (fun c => negb (isspace c)) s start in
  let c := char_at s i in
  let negative := Ascii.eqb c "-"%char in
  let i1 := if negative || Ascii.eqb c "+"%char then S i else i in
  let has_0x :=
    Ascii.eqb (char_at s i1) "0"%char
    && (Ascii.eqb (char_at s (S i1)) "x"%char
        || Ascii.eqb (char_at s (S i1)) "X"%char)
    && is_digit_in 16 (char_at s (S (S i1))) in
  let radix :=
    if Z.eqb b 0 then
      if has_0x then 16%Z
      else if Ascii.eqb (char_at s i1) "0"%char then 8%Z else 10%Z
    else b in
  let i2 := if (Z.eqb radix 16) && has_0x then S (S i1) else i1 in
  if is_digit_in radix (char_at s i2) then
    let '(m, e) := digits_loop radix s (String.length s - i2) i2 0%Z in
    Some (negative, m, e)
  else None.

Definition valid_base (b : Z) : bool :=
  Z.eqb b 0 || (Z.leb 2 b && Z.leb b 36).

Definition strtol (s : string) (start : nat) (b : Z) : conversion :=
  if negb (valid_base b) then mk_conversion 0%Z start EINVAL
  else
    match subject_sequence s start b with
    | None => mk_conversion 0%Z start E_NONE
    | Some (negative, m, e) =>
        let v := if negative then Z.opp m else m in
        if Z.ltb LONG_MAX v then mk_conversion LONG_MAX e ERANGE
        else if Z.ltb v LONG_MIN then mk_conversion LONG_MIN e ERANGE
        else mk_conversion v e E_NONE
    end.

(** [strtoll]: [long long] has the range of [long] under LP64. *)
Definition strtoll (s : string) (start : nat) (b : Z) : conversion :=
  strtol s start b.

(** A minus sign is accepted and the value negated in the unsigned type. *)
Definition strtoul (s : string) (start : nat) (b : Z) : conversion :=
  if negb (valid_base b) then mk_conversion 0%Z start EINVAL
  else
    match subject_sequence s start b with
    | None => mk_conversion 0%Z start E_NONE
    | Some (negative, m, e) =>
        if Z.ltb ULONG_MAX m then mk_conversion ULONG_MAX e ERANGE
        else if negative then mk_conversion ((ULONG_MAX + 1 - m) mod (ULONG_MAX + 1))%Z e E_NONE
        else mk_conversion m e E_NONE
    end.

Definition strtoull (s : string) (start : nat) (b : Z) : conversion :=
  strtoul s start b.

(** ** Integer readers *)

(** The block after a successful post-check, the same in the four readers:
    [if(res > max || res < min) { last_error = T_OVERFLOW; if(res > max)
    i = max; if(res < min) i = min; ret = false; } else i = res;]
    [min] and [max] are values of the output type, so the casts to the
    wider type keep them. *)
Definition check_bounds (res min max : Z) (q : line_parser)
  : bool * line_parser * option Z :=
  if Z.ltb max res || Z.ltb res min then
    (false, with_error T_OVERFLOW q,
     if Z.ltb res min then Some min else Some max)
  else (true, q, Some res).

(** [if(!advance_pos) pos = old_pos;] *)
Definition restore_pos (advance_pos : bool) (old_pos : nat) (q : line_parser)
  : line_parser :=
  if advance_pos then q else with_pos old_pos q.

Definition read_int32_limits (min max : Z) (advance_pos : bool) (p : line_parser)
  : bool * line_parser * option Z :=
  let old_pos := pos p in
  let '(ok, p1) := read_table_pre_check advance_pos p in
  if negb ok then (false, p1, None)
  else
    let r := strtol (buf p1) (pos p1) (base p1) in
    let '(ret, p2) := read_table_post_check (conv_end r) (conv_errno r) p1 in
    let '(ret, p3, i) :=
      if ret then check_bounds (conv_value r) min max p2
      else (false, p2, None) in
    (ret, restore_pos advance_pos old_pos p3, i).

Definition use_long : bool :=
  Z.leb INT64_MAX LONG_MAX && Z.leb LONG_MIN INT64_MIN.

Definition read_int64_limits (min max : Z) (advance_pos : bool) (p : line_parser)
  : bool * line_parser * option Z :=
  let old_pos := pos p in
  let '(ok, p1) := read_table_pre_check advance_pos p in
  if negb ok then (false, p1, None)
  else
    let r :=
      if use_long then strtol (buf p1) (pos p1) (base p1)
      else strtoll (buf p1) (pos p1) (base p1) in
    let '(ret, p2) := read_table_post_check (conv_end r) (conv_errno r) p1 in
    let '(ret, p3, i) :=
      if ret then check_bounds (conv_value r) min max p2
      else (false, p2, None) in
    (ret, restore_pos advance_pos old_pos p3, i).

(** The test in front of the unsigned conversions:
    [if( ! (isalnum(buf[pos]) || buf[pos] == '+') )]. *)
Definition unsigned_start_ok (c : ascii) : bool :=
  isalnum c || Ascii.eqb c "+"%char.

Definition read_uint32_limits (min max : Z) (advance_pos : bool) (p : line_parser)
  : bool * line_parser * option Z :=
  let old_pos := pos p in
  let '(ok, p1) := read_table_pre_check advance_pos p in
  if negb ok then (false, p1, None)
  else
    let c := char_at (buf p1) (pos p1) in
    let '(ret, p3, i) :=
      if negb (unsigned_start_ok c) then
        (false,
         with_error (if Ascii.eqb c "-"%char then T_OVERFLOW else T_FORMAT) p1,
         Some 0%Z)
      else
        let r := strtoul (buf p1) (pos p1) (base p1) in
        let '(ret, p2) := read_table_post_check (conv_end r) (conv_errno r) p1 in
        if ret then check_bounds (conv_value r) min max p2
        else (false, p2, None) in
    (ret, restore_pos advance_pos old_pos p3, i).

Definition use_ulong : bool := Z.leb UINT64_MAX ULONG_MAX.

Definition read_uint64_limits (min max : Z) (advance_pos : bool) (p : line_parser)
  : bool * line_parser * option Z :=
  let old_pos := pos p in
  let '(ok, p1) := read_table_pre_check advance_pos p in
  if negb ok then (false, p1, None)
  else
    let c := char_at (buf p1) (pos p1) in
    let '(ret, p3, i) :=
      if negb (unsigned_start_ok c) then
        (false,
         with_error (if Ascii.eqb c "-"%char then T_OVERFLOW else T_FORMAT) p1,
         Some 0%Z)
      else
        let r :=
          if use_ulong then strtoul (buf p1) (pos p1) (base p1)
          else strtoull (buf p1) (pos p1) (base p1) in
        let '(ret, p2) := read_table_post_check (conv_end r) (conv_errno r) p1 in
        if ret then check_bounds (conv_value r) min max p2
        else (false, p2, None) in
    (ret, restore_pos advance_pos old_pos p3, i).

(** The 16-bit readers read into a local [i2] and copy it out only on
    success: [if(ret) i = i2;]. *)
Definition read_int16_limits (min max : Z) (advance_pos : bool) (p : line_parser)
  : bool * line_parser * option Z :=
  let '(ret, q, i2) := read_int32_limits min max advance_pos p in
  (ret, q, if ret then i2 else None).

Definition read_uint16_limits (min max : Z) (advance_pos : bool) (p : line_parser)
  : bool * line_parser * option Z :=
  let '(ret, q, i2) := read_uint32_limits min max advance_pos p in
  (ret, q, if ret then i2 else None).

Definition read_int32 := read_int32_limits INT32_MIN INT32_MAX.
Definition read_uint32 := read_uint32_limits 0%Z UINT32_MAX.
Definition read_int64 := read_int64_limits INT64_MIN INT64_MAX.
Definition read_uint64 := read_uint64_limits 0%Z UINT64_MAX.
Definition read_int16 := read_int16_limits INT16_MIN INT16_MAX.
Definition read_uint16 := read_uint16_limits 0%Z UINT16_MAX.

(** ** Floating-point fields

    The readers of [double] fields use [strtod], [std::isnan],
    [std::isinf] and the comparisons of [double].  What a binary64 value is
    does not matter to the cursor, so the readers are written over an
    interface to them. *)

Class libc_double : Type := {
  double : Type;
  (** value, end offset and [errno] of [strtod(buf.c_str() + start, &c2)] *)
  strtod : string -> nat -> double * nat * errno_t;
  isnan : double -> bool;
  isinf : double -> bool;
  (** [a <= b] *)
  double_le : double -> double -> bool
}.

Inductive int_kind : Type := I16 | I32 | I64 | U16 | U32 | U64.

(** One argument of [read_next], by its C++ type. *)
Inductive read_op {F : libc_double} : Type :=
| op_int (k : int_kind)
| op_int_bounds (k : int_kind) (min max : Z)
| op_double
| op_double_bounds (min max : double)
| op_pair
| op_pair_bounds (min max : double * double)
| op_string
| op_string_view
| op_skip.

(** What a reader assigned to its argument. *)
Inductive value {F : libc_double} : Type :=
| V_int (i : Z)
| V_double (d : double)
| V_pair (x y : double)
| V_string (s : string)
| V_view (first len : nat).

Section Readers.
Context {F : libc_double}.

Definition read_double (advance_pos : bool) (p : line_parser)
  : bool * line_parser * option double :=
  let old_pos := pos p in
  let '(ok, p1) := read_table_pre_check advance_pos p in
  if negb ok then (false, p1, None)
  else
    let '(d, c2, e) := strtod (buf p1) (pos p1) in
    let '(ret, p2) := read_table_post_check c2 e p1 in
    let '(ret, p3) :=
      if ret && negb (allow_nan_inf p2) then
        if isnan d || isinf d then (false, with_error T_NAN p2)
        else (ret, p2)
      else (ret, p2) in
    (ret, restore_pos advance_pos old_pos p3, Some d).

Definition read_double_limits (min max : double) (advance_pos : bool)
           (p : line_parser) : bool * line_parser * option double :=
  let old_pos := pos p in
  let '(ok, p1) := read_table_pre_check advance_pos p in
  if negb ok then (false, p1, None)
  else
    let '(d, c2, e) := strtod (buf p1) (pos p1) in
    let '(ret, p2) := read_table_post_check c2 e p1 in
    let '(ret, p3) :=
      if ret then
        if isnan d then (false, with_error T_NAN p2)
        else if negb (double_le d max && double_le min d) then
          (false, with_error T_OVERFLOW p2)
        else (ret, p2)
      else (ret, p2) in
    (ret, restore_pos advance_pos old_pos p3, Some d).

(** [read_next(std::pair<double,double>&)] and its bounded overload:
    [ret = first(x) && second(y); if(ret) p = (x,y);
     if(!advance_pos) pos = old_pos;] where both reads advance. *)
Definition read_two
           (first second : bool -> line_parser -> bool * line_parser * option double)
           (advance_pos : bool) (p : line_parser)
  : bool * line_parser * option value :=
  let old_pos := pos p in
  let '(r1, p1, x) := first true p in
  if negb r1 then (false, restore_pos advance_pos old_pos p1, None)
  else
    let '(r2, p2, y) := second true p1 in
    (r2, restore_pos advance_pos old_pos p2,
     match x, y with
     | Some x, Some y => if r2 then Some (V_pair x y) else None
     | _, _ => None
     end).

Definition read_int_limits (k : int_kind)
  : Z -> Z -> bool -> line_parser -> bool * line_parser * option Z :=
  match k with
  | I16 => read_int16_limits
  | I32 => read_int32_limits
  | I64 => read_int64_limits
  | U16 => read_uint16_limits
  | U32 => read_uint32_limits
  | U64 => read_uint64_limits
  end.

Definition type_min (k : int_kind) : Z :=
  match k with
  | I16 => INT16_MIN | I32 => INT32_MIN | I64 => INT64_MIN
  | U16 | U32 | U64 => 0%Z
  end.

Definition type_max (k : int_kind) : Z :=
  match k with
  | I16 => INT16_MAX | I32 => INT32_MAX | I64 => INT64_MAX
  | U16 => UINT16_MAX | U32 => UINT32_MAX | U64 => UINT64_MAX
  end.

Definition as_value {A : Type} (inj : A -> value)
           (r : bool * line_parser * option A)
  : bool * line_parser * option value :=
  let '(ret, q, o) := r in (ret, q, option_map inj o).

(** The specialisations of [read_next]. The one for [read_table_skip_t]
    drops [advance_pos]. *)
Definition read_next (op : read_op) (advance_pos : bool) (p : line_parser)
  : bool * line_parser * option value :=
  match op with
  | op_int k =>
      as_value V_int (read_int_limits k (type_min k) (type_max k) advance_pos p)
  | op_int_bounds k min max =>
      as_value V_int (read_int_limits k min max advance_pos p)
  | op_double => as_value V_double (read_double advance_pos p)
  | op_double_bounds min max =>
      as_value V_double (read_double_limits min max advance_pos p)
  | op_pair => read_two read_double read_double advance_pos p
  | op_pair_bounds min max =>
      read_two (read_double_limits (fst min) (fst max))
               (read_double_limits (snd min) (snd max)) advance_pos p
  | op_string => as_value V_string (read_string advance_pos p)
  | op_string_view =>
      as_value (fun v => V_view (fst v) (snd v)) (read_string_view advance_pos p)
  | op_skip => let '(ret, q) := read_skip p in (ret, q, None)
  end.

(** [read(first, rest...)]: [if(!read_next(val,true)) return false;
    return read(vals...);].  The list returned holds what each attempted
    operation assigned, in order. *)
Fixpoint read (ops : list read_op) (p : line_parser)
  : bool * line_parser * list (option value) :=
  match ops with
  | [] => (true, p, [])
  | op :: rest =>
      let '(ret, p1, o) := read_next op true p in
      if negb ret then (false, p1, [o])
      else
        let '(ret', p2, os) := read rest p1 in
        (ret', p2, o :: os)
  end.

End Readers.

(** ** Moving a parser *)

(** [line_parser(line_parser&& lp)]: returns the new object and what is
    left of [lp].  The constructor assigns every member but [delim], which
    has no default member initializer either: the new object's [delim] is
    whatever the storage held, given here as [indeterminate].  A moved-from
    [std::string] is left empty. *)
Definition move_construct (indeterminate : ascii) (lp : line_parser)
  : line_parser * line_parser :=
  (mk_line_parser (buf lp) (pos lp) (col lp) (base lp) (last_error lp)
                  indeterminate (comment lp) (allow_nan_inf lp),
   mk_line_parser EmptyString 0 0 (base lp) T_COPIED
                  (delim lp) (comment lp) (allow_nan_inf lp)).

(** [operator=(line_parser&& lp)] on two distinct objects ([this == &lp]
    returns at once): returns the assigned object and what is left of
    [lp]. *)
Definition move_assign (this lp : line_parser) : line_parser * line_parser :=
  (mk_line_parser (buf lp) (pos lp) (col lp) (base lp) (last_error lp)
                  (delim this) (comment lp) (allow_nan_inf lp),
   mk_line_parser EmptyString 0 0 (base lp) T_COPIED
                  (delim lp) (comment lp) (allow_nan_inf lp)).

(** The defaulted copy constructor copies every member. *)
Definition copy_construct (lp : line_parser) : line_parser := lp.

(** ** Line acquisition

    The input stream belongs to the caller; [read_table2] keeps a pointer
    to it.  Of [std::istream] the reader uses [eof()], [fail()] and
    [std::getline]; the stream is modelled by its unread characters and
    its two state bits ([fail()] covers [failbit] and [badbit]). *)

Record istream : Type := mk_istream {
  unread : string;
  eofbit : bool;
  failbit : bool
}.

(** The characters up to the first newline, and the rest after it, or
    [None] when the input ends first. *)
Fixpoint take_line (s : string) : string * option string :=
  match s with
  | EmptyString => (EmptyString, None)
  | String c rest =>
      if Ascii.eqb c NL then (EmptyString, Some rest)
      else let '(l, r) := take_line rest in (String c l, r)
  end.

(** [std::getline(is, str)]: a stream that is not [good()] gets [failbit]
    and [str] is kept; otherwise [str] is replaced by the characters up to
    the newline, which is consumed; running into the end sets [eofbit],
    and [failbit] too when nothing was extracted. *)
Definition getline (s : istream) (str : string) : istream * string :=
  if eofbit s || failbit s then (mk_istream (unread s) (eofbit s) true, str)
  else
    match take_line (unread s) with
    | (l, Some rest) => (mk_istream rest false false, l)
    | (l, None) =>
        (mk_istream EmptyString true (Nat.eqb (String.length l) 0), l)
    end.

(** [std::ios::clear()], which the owner of the stream may call. *)
Definition istream_clear (s : istream) : istream :=
  mk_istream (unread s) false false.

Record read_table2 : Type := mk_read_table2 {
  lp : line_parser;
  is_ : istream;  (* [is]; the name is reserved here *)
  line : nat
}.

Definition with_lp (q : line_parser) (r : read_table2) : read_table2 :=
  mk_read_table2 q (is_ r) (line r).

(** The guard on top of [read_line]: [T_READ_ERROR] is not in it. *)
Definition read_line_blocked (e : read_table_errors) : bool :=
  match e with
  | T_EOF | T_COPIED | T_ERROR_FOPEN => true
  | _ => false
  end.

(** [buf.pop_back()] *)
Fixpoint pop_back (s : string) : string :=
  match s with
  | EmptyString => EmptyString
  | String c EmptyString => EmptyString
  | String c rest => String c (pop_back rest)
  end.

(** [buf.back()] *)
Definition back (s : string) : ascii := char_at s (String.length s - 1).

Definition CR : ascii := "013"%char.

(** [if(buf.size()) for(char c : line_endings) if(buf.back() == c)
    { buf.pop_back(); break; }] *)
Definition strip_line_ending (s : string) : string :=
  if Nat.eqb (String.length s) 0 then s
  else if Ascii.eqb (back s) NL then pop_back s
  else if Ascii.eqb (back s) CR then pop_back s
  else s.

(** The [while(1)] loop of [read_line].  [Some (true, r)] is leaving the
    loop by [break], [Some (false, r)] is [return false] from inside, and
    [None] is running out of [fuel]. *)
Fixpoint read_line_loop (skip : bool) (fuel : nat) (r : read_table2)
  : option (bool * read_table2) :=
  match fuel with
  | O => None
  | S fuel' =>
      let '(s1, b1) := getline (is_ r) (buf (lp r)) in
      let p1 := with_buf b1 (lp r) in
      if eofbit s1 then
        Some (false, mk_read_table2 (with_error T_EOF p1) s1 (line r))
      else if failbit s1 then
        Some (false, mk_read_table2 (with_error T_READ_ERROR p1) s1 (line r))
      else
        let len := String.length b1 in
        let line1 := S (line r) in
        let p2 := with_pos 0 p1 in
        if skip then
          let pos1 := skip_blanks b1 0 in
          let p3 := with_pos pos1 p2 in
          if Nat.ltb pos1 len then
            if is_set (comment p3) && Ascii.eqb (char_at b1 pos1) (comment p3)
            then read_line_loop skip fuel' (mk_read_table2 p3 s1 line1)
            else
              Some (true,
                    mk_read_table2
                      (if is_set (delim p3) then with_pos 0 p3 else p3)
                      s1 line1)
          else read_line_loop skip fuel' (mk_read_table2 p3 s1 line1)
        else Some (true, mk_read_table2 p2 s1 line1)
  end.

(** Every turn of the loop that goes round again has consumed a newline,
    so one more turn than there are unread characters is enough. *)
Definition read_line_fuel (r : read_table2) : nat :=
  S (String.length (unread (is_ r))).

Definition read_line (skip : bool) (r : read_table2)
  : option (bool * read_table2) :=
  if read_line_blocked (last_error (lp r)) then Some (false, r)
  else if eofbit (is_ r) then Some (false, with_lp (with_error T_EOF (lp r)) r)
  else
    match read_line_loop skip (read_line_fuel r) r with
    | None => None
    | Some (false, r1) => Some (false, r1)
    | Some (true, r1) =>
        let q := with_error T_OK (with_col 0 (lp r1)) in
        Some (true, with_lp (with_buf (strip_line_ending (buf q)) q) r1)
    end.

(** [read_table2(std::istream& is_, par)] with the default parameters. *)
Definition new_read_table2 (s : istream) : read_table2 :=
  mk_read_table2 (new_line_parser EmptyString) s 0.

(** ** Parameters *)

Record line_parser_params : Type := mk_params {
  par_base : Z;           (* [base] *)
  par_delim : ascii;      (* [delim] *)
  par_comment : ascii;    (* [comment] *)
  par_allow_nan_inf : bool
}.

(** [line_parser_params()] *)
Definition default_params : line_parser_params := mk_params 10 NUL NUL true.

Definition params_set_base (b : Z) (par : line_parser_params) :=
  mk_params b (par_delim par) (par_comment par) (par_allow_nan_inf par).

Definition params_set_delim (d : ascii) (par : line_parser_params) :=
  mk_params (par_base par) d (par_comment par) (par_allow_nan_inf par).

Definition params_set_comment (c : ascii) (par : line_parser_params) :=
  mk_params (par_base par) (par_delim par) c (par_allow_nan_inf par).

Definition params_set_allow_nan_inf (a : bool) (par : line_parser_params) :=
  mk_params (par_base par) (par_delim par) (par_comment par) a.

Definition line_parser_init (par : line_parser_params) (p : line_parser)
  : line_parser :=
  mk_line_parser (buf p) (pos p) (col p) (par_base par) (last_error p)
                 (par_delim par) (par_comment par) (par_allow_nan_inf par).

(** [line_parser(par, text)]: [buf] from the arguments, the default member
    initializers for [pos], [col] and [last_error], then
    [line_parser_init(par)]. *)
Definition line_parser_from (par : line_parser_params) (text : string)
  : line_parser :=
  line_parser_init par (new_line_parser text).

(** [line_parser_params().set_base(base).set_delim(delim)
    .set_allow_nan_inf(allow_nan_inf).set_comment(comment)] *)
Definition get_params (p : line_parser) : line_parser_params :=
  params_set_comment (comment p)
    (params_set_allow_nan_inf (allow_nan_inf p)
       (params_set_delim (delim p)
          (params_set_base (base p) default_params))).

(** * Definitions for the statements *)

(** An instance of the floating-point interface for running the readers
    on concrete lines: the literals it converts are the decimal integers,
    which never are NaN or infinite. *)
Definition integral_double : libc_double :=
  {| double := Z;
     strtod := fun s i =>
       let r := strtol s i 10 in (conv_value r, conv_end r, conv_errno r);
     isnan := fun _ => false;
     isinf := fun _ => false;
     double_le := Z.leb |}.

(** Everything of the cursor but [pos], [col] and [last_error]. *)
Definition same_line (p q : line_parser) : Prop :=
  buf q = buf p /\ base q = base p /\ delim q = delim p
  /\ comment q = comment p /\ allow_nan_inf q = allow_nan_inf p.

(** The converted text ends properly at [c2]: at the end of the line, a
    newline, the comment character, or a blank. *)
Definition terminated (p : line_parser) (c2 : nat) : bool :=
  at_line_end p c2 || is_blank (char_at (buf p) c2).

Definition is_signed (k : int_kind) : bool :=
  match k with I16 | I32 | I64 => true | U16 | U32 | U64 => false end.

Definition is_16bit (k : int_kind) : bool :=
  match k with I16 | U16 => true | _ => false end.

(** The libc conversion a reader of kind [k] calls at the field start. *)
Definition convert (k : int_kind) (p1 : line_parser) : conversion :=
  match k with
  | I16 | I32 => strtol (buf p1) (pos p1) (base p1)
  | I64 => if use_long then strtol (buf p1) (pos p1) (base p1)
           else strtoll (buf p1) (pos p1) (base p1)
  | U16 | U32 => strtoul (buf p1) (pos p1) (base p1)
  | U64 => if use_ulong then strtoul (buf p1) (pos p1) (base p1)
           else strtoull (buf p1) (pos p1) (base p1)
  end.

(** The test on the first character: none for the signed readers. *)
Definition start_ok (k : int_kind) (c : ascii) : bool :=
  is_signed k || unsigned_start_ok c.

(** What a reader does once the pre-check has passed at [p1]. *)
Definition convert_and_check (k : int_kind) (min max : Z) (p1 : line_parser)
  : bool * line_parser * option Z :=
  let c := char_at (buf p1) (pos p1) in
  if negb (start_ok k c) then
    (false,
     with_error (if Ascii.eqb c "-"%char then T_OVERFLOW else T_FORMAT) p1,
     Some 0%Z)
  else
    let r := convert k p1 in
    let '(ret, p2) := read_table_post_check (conv_end r) (conv_errno r) p1 in
    if ret then check_bounds (conv_value r) min max p2
    else (false, p2, None).

(** The result [ret], [q] of a read on [p] that may consume up to [n]
    fields: the line and the parameters are kept; the column moves by at
    most [n]; a peek keeps [pos]; success leaves [T_OK]; without a
    delimiter no failure is [T_MISSING]; a blocked cursor is returned
    untouched. *)
Definition outcome (adv : bool) (n : nat) (p : line_parser)
           (ret : bool) (q : line_parser) : Prop :=
  same_line p q
  /\ col p <= col q <= col p + n
  /\ (adv = false -> pos q = pos p)
  /\ (ret = true -> last_error q = T_OK)
  /\ (ret = false -> is_set (delim p) = false -> last_error q <> T_MISSING)
  /\ (pre_check_blocked (last_error p) = true -> ret = false /\ q = p).

Definition is_string_op {F : libc_double} (op : read_op) : bool :=
  match op with op_string | op_string_view => true | _ => false end.

(** The operations that convert a number. *)
Definition is_numeric {F : libc_double} (op : read_op) : bool :=
  match op with
  | op_string | op_string_view | op_skip => false
  | _ => true
  end.

(** How far one operation can move the column. *)
Definition fields {F : libc_double} (op : read_op) : nat :=
  match op with
  | op_pair | op_pair_bounds _ _ => 2
  | op_string | op_string_view => 0
  | _ => 1
  end.

Definition is_single_numeric {F : libc_double} (op : read_op) : bool :=
  match op with
  | op_int _ | op_int_bounds _ _ _ | op_double | op_double_bounds _ _ => true
  | _ => false
  end.

Definition is_unsigned_op {F : libc_double} (op : read_op) : bool :=
  match op with
  | op_int k | op_int_bounds k _ _ => negb (is_signed k)
  | _ => false
  end.

(** The end offset and [errno] of the conversion that a one-field
    numeric operation runs at the field start [p1]; [None] when no
    conversion is run there. *)
Definition conversion_end {F : libc_double} (op : read_op) (p1 : line_parser)
  : option (nat * errno_t) :=
  match op with
  | op_int k | op_int_bounds k _ _ =>
      if start_ok k (char_at (buf p1) (pos p1)) then
        Some (conv_end (convert k p1), conv_errno (convert k p1))
      else None
  | op_double | op_double_bounds _ _ =>
      let '(_, c2, e) := strtod (buf p1) (pos p1) in Some (c2, e)
  | _ => None
  end.

(** The first character of the field the next read would convert, when
    the pre-check finds one. *)
Definition first_char (p : line_parser) : option ascii :=
  let '(ok, p1) := read_table_pre_check true p in
  if ok then Some (char_at (buf p1) (pos p1)) else None.

(** The value of the next field when it is well formed for an integer of
    kind [k]: the pre-check finds it, the conversion runs and the
    post-check passes. *)
Definition parsed_value (k : int_kind) (p : line_parser) : option Z :=
  let '(ok, p1) := read_table_pre_check true p in
  if ok && start_ok k (char_at (buf p1) (pos p1)) then
    let r := convert k p1 in
    if fst (read_table_post_check (conv_end r) (conv_errno r) p1)
    then Some (conv_value r) else None
  else None.

(** C3 as the specification has it, for the field read from [p] with value
    [v]: in range the read succeeds and stores [v]; out of range it fails
    with [T_OVERFLOW] and stores the nearest bound. *)
Definition stores_or_clamps (k : int_kind) (min max : Z) (adv : bool)
           (p : line_parser) (v : Z) : Prop :=
  let '(ret, q, o) := read_int_limits k min max adv p in
  ((min <= v <= max)%Z -> ret = true /\ o = Some v)
  /\ ((max < v)%Z -> ret = false /\ last_error q = T_OVERFLOW /\ o = Some max)
  /\ ((v < min)%Z -> ret = false /\ last_error q = T_OVERFLOW /\ o = Some min).

(** What the code does: the 16-bit readers copy their result out only on
    success, so on a violation the caller's variable is not assigned. *)
Definition stores_or_clamps_by_width (k : int_kind) (min max : Z) (adv : bool)
           (p : line_parser) (v : Z) : Prop :=
  let '(ret, q, o) := read_int_limits k min max adv p in
  ((min <= v <= max)%Z -> ret = true /\ o = Some v)
  /\ ((max < v)%Z ->
      ret = false /\ last_error q = T_OVERFLOW
      /\ o = if is_16bit k then None else Some max)
  /\ ((v < min)%Z ->
      ret = false /\ last_error q = T_OVERFLOW
      /\ o = if is_16bit k then None else Some min).

(** The next field is there for an integer of kind [k], the conversion
    has consumed characters and reports a range error: the value does not
    fit [long] (or [unsigned long]). *)
Definition range_error (k : int_kind) (p : line_parser) : bool :=
  let '(ok, p1) := read_table_pre_check true p in
  ok && start_ok k (char_at (buf p1) (pos p1))
  && match conv_errno (convert k p1) with ERANGE => true | _ => false end
  && negb (Nat.eqb (conv_end (convert k p1)) (pos p1)).


(** C5 as the specification has it: a read with [advance_pos = false]
    leaves position, column and line buffer as they were. *)
Definition peek_changes_nothing {F : libc_double} (op : read_op)
           (p : line_parser) : Prop :=
  let '(_, q, _) := read_next op false p in
  pos q = pos p /\ col q = col p /\ buf q = buf p.

(** The end pointer that [strtod] returns lies in the text it was given,
    at or after the start. *)
Definition strtod_within {F : libc_double} : Prop :=
  forall s i,
    i <= snd (fst (strtod s i))
    /\ (i <= String.length s -> snd (fst (strtod s i)) <= String.length s).

(** [pos] has moved forward, if at all, and is inside the buffer. *)
Definition position_kept (p q : line_parser) : Prop :=
  buf q = buf p /\ pos p <= pos q <= String.length (buf p).

(** The errors that a read sets when it fails on the field in front of
    it. *)
Definition failure_error (e : read_table_errors) : bool :=
  match e with
  | T_EOL | T_MISSING | T_FORMAT | T_OVERFLOW | T_NAN => true
  | _ => false
  end.

(** How a read that returned [ret] has failed: on the field, with one of
    the errors above, or at once because the cursor was in a state that
    cannot be recovered, which it then leaves as it is. *)
Definition failed_properly (p : line_parser) (ret : bool) (q : line_parser)
  : Prop :=
  ret = false ->
  failure_error (last_error q) = true
  \/ (q = p /\ unrecoverable (last_error p) = true).

(** The characters that end a field in whitespace mode and in delimiter
    mode: the tests of the loops in [read_string2]. *)
Definition ends_field (p : line_parser) (c : ascii) : bool :=
  is_blank c || Ascii.eqb c NL
  || (is_set (comment p) && Ascii.eqb c (comment p)).

Definition ends_delimited (p : line_parser) (c : ascii) : bool :=
  Ascii.eqb c (delim p) || Ascii.eqb c NL
  || (is_set (comment p) && Ascii.eqb c (comment p)).

(** What a conversion looks at: everything of the cursor but [col] and
    [last_error]. *)
Definition view (p : line_parser) : string * nat * Z * ascii * ascii * bool :=
  (buf p, pos p, base p, delim p, comment p, allow_nan_inf p).

(** No newline character occurs in [s]. *)
Fixpoint no_newline (s : string) : bool :=
  match s with
  | EmptyString => true
  | String c rest => negb (Ascii.eqb c NL) && no_newline rest
  end.

(** The line [raw] holds data for a parser with the comment character of
    [p]: it has a character that is no blank, and the first such character
    does not start a comment. *)
Definition has_data (p : line_parser) (raw : string) : Prop :=
  skip_blanks raw 0 < String.length raw
  /\ (is_set (comment p)
      && Ascii.eqb (char_at raw (skip_blanks raw 0)) (comment p))%bool = false.

(** * Properties *)

(** ** The conversions and the readers on concrete lines *)

Example strtol_123abc :
  strtol "123abc" 0 10 = mk_conversion 123 3 E_NONE.
Proof. reflexivity. Qed.

Example strtol_hex :
  strtol "  -0x1F," 0 0 = mk_conversion (-31) 7 E_NONE.
Proof. reflexivity. Qed.

Example strtol_saturates :
  strtol "99999999999999999999 1" 0 10 = mk_conversion LONG_MAX 20 ERANGE.
Proof. reflexivity. Qed.

Example strtoul_negates :
  strtoul "-1" 0 10 = mk_conversion ULONG_MAX 2 E_NONE.
Proof. reflexivity. Qed.

Example read_int32_plain :
  read_int32 true (new_line_parser "42 7")
  = (true, mk_line_parser "42 7" 3 1 10 T_OK NUL NUL true, Some 42%Z).
Proof. reflexivity. Qed.

Example read_int32_too_big :
  read_int32 true (new_line_parser "  100000000000 3.0")
  = (false, mk_line_parser "  100000000000 3.0" 15 1 10 T_OVERFLOW NUL NUL true,
     Some INT32_MAX).
Proof. reflexivity. Qed.

Example read_line_skips_comment :
  read_line true
    (with_lp (set_comment "#"%char (new_line_parser EmptyString))
       (new_read_table2
          (mk_istream ("# just a comment" ++ String NL ("1 2" ++ String NL ""))
                      false false)))
  = Some (true,
          mk_read_table2
            (mk_line_parser "1 2" 0 0 10 T_OK NUL "#"%char true)
            (mk_istream "" false false) 2).
Proof. reflexivity. Qed.

(** ** What the checks leave alone *)

Lemma same_line_refl p : same_line p p.
Proof. repeat split. Qed.

Lemma same_line_trans p q r : same_line p q -> same_line q r -> same_line p r.
Proof.
  unfold same_line; intros (A1 & A2 & A3 & A4 & A5) (B1 & B2 & B3 & B4 & B5).
  repeat split; congruence.
Qed.

Lemma same_line_with_pos n p : same_line p (with_pos n p).
Proof. repeat split. Qed.

Lemma same_line_with_col n p : same_line p (with_col n p).
Proof. repeat split. Qed.

Lemma same_line_with_error e p : same_line p (with_error e p).
Proof. repeat split. Qed.

Lemma same_line_restore adv n p : same_line p (restore_pos adv n p).
Proof. destruct adv; repeat split. Qed.

Create HintDb cursor.

#[local] Hint Resolve same_line_refl same_line_with_pos same_line_with_col
  same_line_with_error same_line_restore : cursor.

Lemma restore_pos_col adv n p : col (restore_pos adv n p) = col p.
Proof. destruct adv; reflexivity. Qed.

Lemma restore_pos_error adv n p :
  last_error (restore_pos adv n p) = last_error p.
Proof. destruct adv; reflexivity. Qed.

Lemma restore_pos_peek n p : pos (restore_pos false n p) = n.
Proof. reflexivity. Qed.

(** A blocked cursor is returned as it is. *)
Lemma pre_check_blocked_noop adv p :
  pre_check_blocked (last_error p) = true ->
  read_table_pre_check adv p = (false, p).
Proof. intros H; unfold read_table_pre_check; rewrite H; reflexivity. Qed.

(** The outcome of the pre-check, case by case. *)
Lemma pre_check_cases adv p :
  let i := skip_blanks (buf p) (pos p) in
  read_table_pre_check adv p =
    if pre_check_blocked (last_error p) then (false, p)
    else if at_line_end p i then
      (false, with_error T_EOL (with_pos (if adv then i else pos p) p))
    else if is_set (delim p) && Ascii.eqb (char_at (buf p) i) (delim p) then
      (false, with_error T_MISSING (with_pos (if adv then i else pos p) p))
    else (true, with_pos i p).
Proof.
  unfold read_table_pre_check; cbn zeta.
  destruct (pre_check_blocked (last_error p)); [reflexivity|].
  change (at_line_end (with_pos (skip_blanks (buf p) (pos p)) p)
                      (pos (with_pos (skip_blanks (buf p) (pos p)) p)))
    with (at_line_end p (skip_blanks (buf p) (pos p))).
  destruct (at_line_end p (skip_blanks (buf p) (pos p))).
  - destruct adv; reflexivity.
  - cbn [with_pos buf delim pos].
    destruct (is_set (delim p) && _)%bool; [destruct adv|]; reflexivity.
Qed.

(** When the pre-check passes, it has only moved [pos] over the blanks,
    whatever [advance_pos] is. *)
Lemma pre_check_true adv p p1 :
  read_table_pre_check adv p = (true, p1) ->
  p1 = with_pos (skip_blanks (buf p) (pos p)) p
  /\ pre_check_blocked (last_error p) = false
  /\ at_line_end p (pos p1) = false
  /\ (is_set (delim p) && Ascii.eqb (char_at (buf p) (pos p1)) (delim p) = false)%bool.
Proof.
  rewrite pre_check_cases; cbn zeta.
  destruct (pre_check_blocked (last_error p)); [discriminate|].
  destruct (at_line_end p _) eqn:E1; [discriminate|].
  destruct (is_set (delim p) && _)%bool eqn:E2; [discriminate|].
  intros H; injection H as <-; cbn [with_pos pos]; auto.
Qed.

Lemma pre_check_true_any adv adv' p p1 :
  read_table_pre_check adv p = (true, p1) ->
  read_table_pre_check adv' p = (true, p1).
Proof.
  rewrite !pre_check_cases; cbn zeta.
  destruct (pre_check_blocked (last_error p)); [discriminate|].
  destruct (at_line_end p _); [discriminate|].
  destruct (is_set (delim p) && _)%bool; [discriminate|]; auto.
Qed.

(** When it fails, it has set [T_EOL] or [T_MISSING] or found the cursor
    blocked; a peek keeps [pos]. *)
Lemma pre_check_false adv p q :
  read_table_pre_check adv p = (false, q) ->
  same_line p q /\ col q = col p
  /\ (adv = false -> pos q = pos p)
  /\ (q = p /\ pre_check_blocked (last_error p) = true
      \/ pre_check_blocked (last_error p) = false
         /\ (last_error q = T_EOL
             \/ last_error q = T_MISSING /\ is_set (delim p) = true)).
Proof.
  rewrite pre_check_cases; cbn zeta.
  destruct (pre_check_blocked (last_error p)) eqn:B.
  - intros H; injection H as <-; auto 6 with cursor.
  - destruct (at_line_end p _).
    + intros H; injection H as <-.
      repeat split; auto; intros ->; reflexivity.
    + destruct (is_set (delim p)) eqn:D; cbn [andb].
      * destruct (Ascii.eqb _ _); [|discriminate].
        intros H; injection H as <-.
        repeat split; auto; intros ->; reflexivity.
      * discriminate.
Qed.

(** The loop of the post-check stays put on a character that is no blank,
    and reports a blank exactly when it starts on one. *)
Lemma blanks_loop_stays s fuel c hb :
  is_blank (char_at s c) = false -> blanks_loop s fuel c hb = (c, hb).
Proof. intros H; destruct fuel; simpl; [|rewrite H]; reflexivity. Qed.

Lemma blanks_loop_seen s fuel c : snd (blanks_loop s fuel c true) = true.
Proof.
  revert c; induction fuel as [|fuel IH]; intros c; simpl; [reflexivity|].
  destruct (is_blank (char_at s c)); simpl; [apply IH|reflexivity].
Qed.

Lemma blanks_loop_have_blank s fuel c pos1 hb :
  blanks_loop s fuel c false = (pos1, hb) ->
  hb = false /\ pos1 = c \/ hb = true /\ is_blank (char_at s c) = true.
Proof.
  destruct fuel as [|fuel]; simpl.
  - intros H; injection H as <- <-; auto.
  - destruct (is_blank (char_at s c)) eqn:B; simpl.
    + intros H; right; split; [|reflexivity].
      pose proof (blanks_loop_seen s fuel (S c)) as S1.
      rewrite H in S1; exact S1.
    + intros H; injection H as <- <-; auto.
Qed.

Lemma at_line_end_frame p q i :
  buf q = buf p -> comment q = comment p -> at_line_end q i = at_line_end p i.
Proof. unfold at_line_end; intros -> ->; reflexivity. Qed.

(** A post-check that passes has seen [errno] clear and at least one
    character converted; it leaves [T_OK] and a column that is the old one
    (at the end of the line) or the next. *)
Lemma post_check_true c2 e p q :
  read_table_post_check c2 e p = (true, q) ->
  e = E_NONE /\ c2 <> pos p /\ last_error q = T_OK /\ same_line p q
  /\ (col q = col p \/ col q = S (col p))
  /\ (is_set (delim p) = false -> terminated p c2 = true).
Proof.
  unfold read_table_post_check.
  destruct e; try discriminate;
    destruct (Nat.eqb c2 (pos p)) eqn:E; try discriminate.
  apply Nat.eqb_neq in E.
  destruct (blanks_loop (buf p) (String.length (buf p) - c2) c2 false)
    as [pos1 hb] eqn:L.
  apply blanks_loop_have_blank in L.
  set (p1 := with_error T_OK (with_pos pos1 p)).
  assert (AE : forall i, at_line_end p1 i = at_line_end p i)
    by (intros i; apply at_line_end_frame; reflexivity).
  rewrite AE. change (delim p1) with (delim p).
  destruct (at_line_end p pos1) eqn:A.
  - intros H; injection H as <-.
    repeat split; auto. intros _; unfold terminated.
    destruct L as [[_ ->]|[_ ->]]; [rewrite A; reflexivity|apply orb_true_r].
  - destruct (is_set (delim p)) eqn:D; cbn [negb andb].
    + destruct (Ascii.eqb _ _); cbn [negb]; [|discriminate].
      intros H; injection H as <-; repeat split; auto; discriminate.
    + destruct hb; cbn [negb]; [|discriminate].
      intros H; injection H as <-; repeat split; auto.
      intros _; unfold terminated.
      destruct L as [[L _]|[_ ->]]; [discriminate|apply orb_true_r].
Qed.

(** A post-check that fails has set [T_FORMAT] or [T_OVERFLOW] and kept
    the column. *)
Lemma post_check_false c2 e p q :
  read_table_post_check c2 e p = (false, q) ->
  same_line p q /\ col q = col p
  /\ (last_error q = T_FORMAT \/ last_error q = T_OVERFLOW).
Proof.
  unfold read_table_post_check.
  destruct e;
    try (intros H; injection H as <-; repeat split; auto; fail);
    destruct (Nat.eqb c2 (pos p));
    try (intros H; injection H as <-; repeat split; auto; fail).
  destruct (blanks_loop _ _ _ _) as [pos1 hb].
  set (p1 := with_error T_OK (with_pos pos1 p)).
  destruct (at_line_end p1 pos1); [discriminate|].
  destruct (negb (is_set (delim p1)) && negb hb)%bool.
  - intros H; injection H as <-; repeat split; auto.
  - destruct (is_set (delim p1)); [|discriminate].
    destruct (negb (Ascii.eqb _ _)); [|discriminate].
    intros H; injection H as <-; repeat split; auto.
Qed.

(** Without a delimiter, a conversion that stops on a character that does
    not end the field is a format error. *)
Lemma post_check_glued c2 p :
  is_set (delim p) = false -> c2 <> pos p -> terminated p c2 = false ->
  read_table_post_check c2 E_NONE p
  = (false, with_error T_FORMAT (with_error T_OK (with_pos c2 p))).
Proof.
  intros D N T; unfold terminated in T.
  apply orb_false_iff in T as [A B].
  unfold read_table_post_check.
  apply Nat.eqb_neq in N; rewrite N.
  rewrite blanks_loop_stays by exact B.
  set (p1 := with_error T_OK (with_pos c2 p)).
  replace (at_line_end p1 c2) with (at_line_end p c2)
    by (symmetry; apply at_line_end_frame; reflexivity).
  rewrite A. change (delim p1) with (delim p); rewrite D; reflexivity.
Qed.

(** ** The integer readers, seen as one *)

Lemma read_int_limits_eq k min max adv p :
  read_int_limits k min max adv p =
    let '(ok, p1) := read_table_pre_check adv p in
    if negb ok then (false, p1, None)
    else
      let '(ret, p3, i) := convert_and_check k min max p1 in
      (ret, restore_pos adv (pos p) p3,
       if is_16bit k && negb ret then None else i).
Proof.
  destruct k; cbn [read_int_limits];
    unfold read_int16_limits, read_uint16_limits, read_int32_limits,
           read_int64_limits, read_uint32_limits, read_uint64_limits,
           convert_and_check, start_ok; cbn [is_signed is_16bit convert orb negb andb];
    destruct (read_table_pre_check adv p) as [[] p1]; cbn [negb]; try reflexivity;
    try destruct (negb (unsigned_start_ok _)); try reflexivity;
    destruct (read_table_post_check _ _ p1) as [[] p2]; try reflexivity;
    destruct (check_bounds _ _ _ _) as [[[] ?] ?]; reflexivity.
Qed.

Lemma check_bounds_cases res min max q :
  (min <= max)%Z ->
  ((min <= res <= max)%Z /\ check_bounds res min max q = (true, q, Some res))
  \/ ((max < res)%Z
      /\ check_bounds res min max q = (false, with_error T_OVERFLOW q, Some max))
  \/ ((res < min)%Z
      /\ check_bounds res min max q = (false, with_error T_OVERFLOW q, Some min)).
Proof.
  intros L; unfold check_bounds.
  destruct (Z.ltb_spec max res) as [A|A], (Z.ltb_spec res min) as [B|B];
    cbn [orb]; try lia; auto.
Qed.

Lemma check_bounds_frame res min max q ret q' o :
  check_bounds res min max q = (ret, q', o) ->
  same_line q q' /\ col q' = col q /\ pos q' = pos q
  /\ (ret = true -> q' = q)
  /\ (ret = false -> last_error q' = T_OVERFLOW).
Proof.
  unfold check_bounds; destruct (Z.ltb max res || Z.ltb res min)%bool;
    intros H; injection H as <- <- <-; repeat split; auto; discriminate.
Qed.

(** After the pre-check: the line is kept, the column is the old or the
    next one, success leaves [T_OK], and failure one of three errors. *)
Lemma convert_and_check_frame k min max p1 ret q o :
  convert_and_check k min max p1 = (ret, q, o) ->
  same_line p1 q
  /\ (col q = col p1 \/ col q = S (col p1))
  /\ (ret = true -> last_error q = T_OK)
  /\ (ret = false ->
      last_error q = T_FORMAT \/ last_error q = T_OVERFLOW).
Proof.
  unfold convert_and_check.
  destruct (negb (start_ok k _)).
  - intros H; injection H as <- <- <-.
    repeat split; auto; try discriminate.
    intros _; cbn; destruct (Ascii.eqb _ _); auto.
  - destruct (read_table_post_check _ _ p1) as [[] p2] eqn:P.
    + apply post_check_true in P as (_ & _ & E & SL & C & _).
      intros H; apply check_bounds_frame in H as (SL' & C' & _ & T & Fl).
      split; [|split; [|split]].
      * eapply same_line_trans; eauto.
      * rewrite C'; exact C.
      * intros R; rewrite (T R); exact E.
      * intros R; right; auto.
    + apply post_check_false in P as (SL & C & E).
      intros H; injection H as <- <- <-.
      split; [exact SL|split; [auto|split; [discriminate|auto]]].
Qed.

(** ** What every numeric read guarantees *)

Lemma with_pos_same p : with_pos (pos p) p = p.
Proof. destruct p; reflexivity. Qed.

Lemma blocked_not_missing e :
  pre_check_blocked e = true -> e <> T_MISSING.
Proof. destruct e; simpl; congruence. Qed.

(** A reader that runs the pre-check, then a body on the cursor [p1] it
    returns, then restores [pos] for a peek. *)
Lemma outcome_after_pre_check adv p ok p1 ret p3 :
  read_table_pre_check adv p = (ok, p1) ->
  (ok = true ->
   same_line p1 p3
   /\ (col p3 = col p1 \/ col p3 = S (col p1))
   /\ (ret = true -> last_error p3 = T_OK)
   /\ (ret = false -> last_error p3 = T_FORMAT \/ last_error p3 = T_OVERFLOW
                      \/ last_error p3 = T_NAN)) ->
  outcome adv 1 p (if ok then ret else false)
          (if ok then restore_pos adv (pos p) p3 else p1).
Proof.
  intros P B; destruct ok.
  - destruct (B eq_refl) as (SL & C & OK & KO); clear B.
    apply pre_check_true in P as (-> & NB & _ & _).
    unfold outcome; split; [|split; [|split; [|split; [|split]]]].
    + eapply same_line_trans; [|apply same_line_restore].
      eapply same_line_trans; [apply same_line_with_pos|exact SL].
    + rewrite restore_pos_col. cbn [with_pos col] in C. lia.
    + intros ->; reflexivity.
    + intros R; rewrite restore_pos_error; auto.
    + intros R _; rewrite restore_pos_error.
      destruct (KO R) as [E|[E|E]]; rewrite E; discriminate.
    + intros Bl; congruence.
  - clear B. apply pre_check_false in P as (SL & C & PK & K).
    unfold outcome; split; [exact SL|split; [lia|split; [exact PK|]]].
    split; [discriminate|split].
    + intros _ D.
      destruct K as [[-> Bl]|[_ [E|[_ D']]]].
      * apply blocked_not_missing; exact Bl.
      * rewrite E; discriminate.
      * congruence.
    + intros Bl; destruct K as [[-> _]|[NB _]]; [auto|congruence].
Qed.

Lemma int_outcome k min max adv p ret q o :
  read_int_limits k min max adv p = (ret, q, o) -> outcome adv 1 p ret q.
Proof.
  rewrite read_int_limits_eq.
  destruct (read_table_pre_check adv p) as [ok p1] eqn:P.
  destruct ok; cbn [negb].
  - destruct (convert_and_check k min max p1) as [[ret' p3] i] eqn:B.
    intros H; injection H as <- <- _.
    apply (outcome_after_pre_check adv p true p1 ret' p3 P).
    intros _. apply convert_and_check_frame in B as (SL & C & OK & KO).
    repeat (split; [assumption|]). intros R; destruct (KO R); auto.
  - intros H; injection H as <- <- _.
    apply (outcome_after_pre_check adv p false p1 false p1 P); discriminate.
Qed.

Section DoubleReaders.
Context {F : libc_double}.

Lemma double_outcome adv p ret q o :
  read_double adv p = (ret, q, o) -> outcome adv 1 p ret q.
Proof.
  unfold read_double.
  destruct (read_table_pre_check adv p) as [ok p1] eqn:P.
  destruct ok; cbn [negb].
  - destruct (strtod (buf p1) (pos p1)) as [[d c2] e].
    destruct (read_table_post_check c2 e p1) as [r2 p2] eqn:PC.
    destruct (if (r2 && negb (allow_nan_inf p2))%bool
              then if (isnan d || isinf d)%bool
                   then (false, with_error T_NAN p2) else (r2, p2)
              else (r2, p2)) as [r3 p3] eqn:N.
    intros H; injection H as <- <- _.
    apply (outcome_after_pre_check adv p true p1 r3 p3 P); intros _.
    destruct r2.
    + apply post_check_true in PC as (_ & _ & E & SL & C & _).
      destruct (negb (allow_nan_inf p2)); cbn [andb] in N;
        [destruct (isnan d || isinf d)%bool|]; injection N as <- <-;
        (split; [assumption|split; [assumption|split]]);
        auto; discriminate.
    + apply post_check_false in PC as (SL & C & E).
      cbn [andb] in N; injection N as <- <-.
      split; [assumption|split; [auto|split; [discriminate|]]].
      intros _; destruct E; auto.
  - intros H; injection H as <- <- _.
    apply (outcome_after_pre_check adv p false p1 false p1 P); discriminate.
Qed.

Lemma double_limits_outcome min max adv p ret q o :
  read_double_limits min max adv p = (ret, q, o) -> outcome adv 1 p ret q.
Proof.
  unfold read_double_limits.
  destruct (read_table_pre_check adv p) as [ok p1] eqn:P.
  destruct ok; cbn [negb].
  - destruct (strtod (buf p1) (pos p1)) as [[d c2] e].
    destruct (read_table_post_check c2 e p1) as [r2 p2] eqn:PC.
    destruct (if r2
              then if isnan d then (false, with_error T_NAN p2)
                   else if negb (double_le d max && double_le min d)
                        then (false, with_error T_OVERFLOW p2)
                        else (r2, p2)
              else (r2, p2)) as [r3 p3] eqn:N.
    intros H; injection H as <- <- _.
    apply (outcome_after_pre_check adv p true p1 r3 p3 P); intros _.
    destruct r2.
    + apply post_check_true in PC as (_ & _ & E & SL & C & _).
      destruct (isnan d);
        [|destruct (negb (double_le d max && double_le min d))];
        injection N as <- <-;
        (split; [assumption|split; [assumption|split]]);
        auto; discriminate.
    + apply post_check_false in PC as (SL & C & E).
      injection N as <- <-.
      split; [assumption|split; [auto|split; [discriminate|]]].
      intros _; destruct E; auto.
  - intros H; injection H as <- <- _.
    apply (outcome_after_pre_check adv p false p1 false p1 P); discriminate.
Qed.

End DoubleReaders.

Lemma read_skip_outcome p ret q :
  read_skip p = (ret, q) ->
  same_line p q
  /\ (ret = true -> last_error q = T_OK /\ col q = S (col p))
  /\ (ret = false -> last_error q = T_EOL /\ col q = col p).
Proof.
  unfold read_skip.
  destruct (is_set (delim p)).
  - destruct (Nat.eqb _ _); intros H; injection H as <- <-;
      (split; [repeat split|split; [intros R|intros R]]);
      try discriminate; split; reflexivity.
  - destruct (at_line_end _ _); intros H; injection H as <- <-;
      (split; [repeat split|split; [intros R|intros R]]);
      try discriminate; split; reflexivity.
Qed.

(** A string read keeps the column, and on success leaves [last_error]
    as it was or sets [T_EOL]. *)
Lemma read_string2_outcome adv p ret q o :
  read_string2 adv p = (ret, q, o) ->
  same_line p q /\ col q = col p
  /\ (adv = false -> pos q = pos p)
  /\ (ret = true -> last_error q = T_EOL \/ last_error q = last_error p)
  /\ (ret = false -> is_set (delim p) = false -> last_error q <> T_MISSING).
Proof.
  unfold read_string2.
  destruct (is_set (delim p)) eqn:D.
  - destruct (string_delim_blocked (last_error p)).
    + intros H; injection H as <- <- _.
      repeat split; auto; discriminate.
    + destruct (Nat.ltb _ _ && Ascii.eqb _ _)%bool;
        intros H; injection H as <- <- _; destruct adv;
        (split; [repeat split|split; [reflexivity|split; [|split]]]);
        auto; discriminate.
  - destruct (read_table_pre_check adv p) as [ok q0] eqn:P.
    destruct ok; cbn [negb].
    + apply pre_check_true in P as (-> & _ & _ & _).
      intros H; injection H as <- <- _; destruct adv;
        (split; [repeat split|split; [reflexivity|split; [|split]]]);
        auto; discriminate.
    + apply pre_check_false in P as (SL & C & PK & K).
      intros H; injection H as <- <- _.
      split; [exact SL|split; [exact C|split; [exact PK|split]]];
        [discriminate|].
      intros _ _. destruct K as [[-> Bl]|[_ [E|[_ D']]]].
      * apply blocked_not_missing; exact Bl.
      * rewrite E; discriminate.
      * congruence.
Qed.

Section Dispatch.
Context {F : libc_double}.

Lemma as_value_inv {A : Type} (inj : A -> value) r ret q o :
  as_value inj r = (ret, q, o) ->
  exists o', r = (ret, q, o') /\ o = option_map inj o'.
Proof.
  destruct r as [[ret' q'] o']; unfold as_value.
  intros H; injection H as <- <- <-; eauto.
Qed.

Lemma outcome_weaken adv n m p ret q :
  n <= m -> outcome adv n p ret q -> outcome adv m p ret q.
Proof.
  unfold outcome; intros L (A & B & C); split; [exact A|split; [lia|exact C]].
Qed.

Lemma read_two_outcome first second adv p ret q o :
  (forall a p r q o, first a p = (r, q, o) -> outcome a 1 p r q) ->
  (forall a p r q o, second a p = (r, q, o) -> outcome a 1 p r q) ->
  read_two first second adv p = (ret, q, o) -> outcome adv 2 p ret q.
Proof.
  intros H1 H2; unfold read_two.
  destruct (first true p) as [[r1 p1] x] eqn:A.
  apply H1 in A as (SL1 & C1 & _ & OK1 & M1 & B1).
  destruct r1; cbn [negb].
  - destruct (second true p1) as [[r2 p2] y] eqn:B.
    apply H2 in B as (SL2 & C2 & _ & OK2 & M2 & _).
    intros H; injection H as <- <- _.
    unfold outcome; split; [|split; [|split; [|split; [|split]]]].
    + eapply same_line_trans; [|apply same_line_restore].
      eapply same_line_trans; eassumption.
    + rewrite restore_pos_col; lia.
    + intros ->; reflexivity.
    + rewrite restore_pos_error; exact OK2.
    + rewrite restore_pos_error; intros R D; apply M2; [exact R|].
      destruct SL1 as (_ & _ & -> & _); exact D.
    + intros Bl; destruct (B1 Bl); discriminate.
  - intros H; injection H as <- <- _.
    unfold outcome; split; [|split; [|split; [|split; [|split]]]].
    + eapply same_line_trans; [exact SL1|apply same_line_restore].
    + rewrite restore_pos_col; lia.
    + intros ->; reflexivity.
    + discriminate.
    + rewrite restore_pos_error; exact M1.
    + intros Bl; destruct (B1 Bl) as [_ ->]; split; [reflexivity|].
      destruct adv; [reflexivity|apply with_pos_same].
Qed.

(** Every numeric operation has the guarantees of [outcome]. *)
Lemma numeric_outcome op adv p ret q o :
  is_numeric op = true ->
  read_next op adv p = (ret, q, o) -> outcome adv (fields op) p ret q.
Proof.
  destruct op; cbn [is_numeric read_next fields]; try discriminate; intros _.
  - intros H; apply as_value_inv in H as (o' & H & _).
    eapply int_outcome; exact H.
  - intros H; apply as_value_inv in H as (o' & H & _).
    eapply int_outcome; exact H.
  - intros H; apply as_value_inv in H as (o' & H & _).
    eapply double_outcome; exact H.
  - intros H; apply as_value_inv in H as (o' & H & _).
    eapply double_limits_outcome; exact H.
  - apply read_two_outcome; intros *; apply double_outcome.
  - apply read_two_outcome; intros *; apply double_limits_outcome.
Qed.

Lemma string_op_outcome op adv p ret q o :
  is_string_op op = true ->
  read_next op adv p = (ret, q, o) ->
  same_line p q /\ col q = col p
  /\ (adv = false -> pos q = pos p)
  /\ (ret = true -> last_error q = T_EOL \/ last_error q = last_error p)
  /\ (ret = false -> is_set (delim p) = false -> last_error q <> T_MISSING).
Proof.
  destruct op; cbn [is_string_op read_next]; try discriminate; intros _;
    intros H; apply as_value_inv in H as (o' & H & _);
    unfold read_string, read_string_view in H;
    destruct (read_string2 adv p) as [[r2 q2] o2] eqn:S2;
    injection H as <- <- _;
    eapply read_string2_outcome; exact S2.
Qed.

End Dispatch.

(** ** Terminal states and the field readers *)

Lemma unrecoverable_blocked e :
  unrecoverable e = true -> pre_check_blocked e = true.
Proof. destruct e; simpl; congruence. Qed.

(** On a cursor in a terminal state every numeric read, and every string
    read in whitespace mode, returns failure and the cursor as it was. *)
Lemma numeric_reads_sticky {F : libc_double} (op : read_op) adv p :
  unrecoverable (last_error p) = true -> is_numeric op = true ->
  exists o, read_next op adv p = (false, p, o).
Proof.
  intros U N. destruct (read_next op adv p) as [[ret q] o] eqn:R.
  apply numeric_outcome in R as (_ & _ & _ & _ & _ & B); [|exact N].
  destruct (B (unrecoverable_blocked _ U)) as [-> ->]; eauto.
Qed.

Lemma string_read_sticky_whitespace adv p :
  unrecoverable (last_error p) = true -> is_set (delim p) = false ->
  read_string2 adv p = (false, p, None).
Proof.
  intros U D; unfold read_string2; rewrite D.
  rewrite pre_check_blocked_noop by (apply unrecoverable_blocked; exact U).
  reflexivity.
Qed.

(** C1: [read_skip] on a cursor in the end-of-input state.  The input
    ends in the line [a b] without a newline: [read_line] reports
    [T_EOF], and the [read_skip] that follows scans the buffer, moves
    [pos] and [col] and resets [last_error] to [T_OK] instead of failing
    with [T_EOF]. *)
Theorem read_skip_ignores_terminal_state :
  exists r1,
    read_line true (new_read_table2 (mk_istream "a b" false false))
    = Some (false, r1)
    /\ lp r1 = mk_line_parser "a b" 0 0 10 T_EOF NUL NUL true
    /\ read_skip (lp r1)
       = (true, mk_line_parser "a b" 1 1 10 T_OK NUL NUL true).
Proof. eexists; repeat split. Qed.

(** In general [read_skip] never leaves a terminal error in place: it
    ends with [T_OK] or [T_EOL]. *)
Lemma read_skip_clears_terminal_state p :
  unrecoverable (last_error p) = true ->
  last_error (snd (read_skip p)) <> last_error p.
Proof.
  intros U. destruct (read_skip p) as [ret q] eqn:R.
  apply read_skip_outcome in R as (_ & OK & KO); cbn [snd].
  destruct ret; [destruct (OK eq_refl) as [-> _]|destruct (KO eq_refl) as [-> _]];
    intros E; rewrite <- E in U; discriminate U.
Qed.

(** The same reader on a moved-from cursor replaces [T_COPIED] by
    [T_EOL], which [reset_pos] then clears. *)
Lemma read_skip_revives_moved_from :
  let moved_from := snd (move_construct NUL (new_line_parser "1 2")) in
  last_error moved_from = T_COPIED
  /\ last_error (snd (read_skip moved_from)) = T_EOL
  /\ last_error (reset_pos (snd (read_skip moved_from))) = T_OK.
Proof. repeat split. Qed.

(** In delimiter mode a string read on a moved-from cursor succeeds. *)
Lemma read_string_on_moved_from :
  let moved_from :=
    snd (move_construct NUL (set_delim ","%char (new_line_parser "1,2"))) in
  last_error moved_from = T_COPIED
  /\ read_string2 true moved_from
     = (true, with_error T_EOL moved_from, Some (0, 0)).
Proof. split; reflexivity. Qed.

(** ** Unsigned fields *)

Lemma first_char_spec p c :
  first_char p = Some c <->
  pre_check_blocked (last_error p) = false
  /\ at_line_end p (skip_blanks (buf p) (pos p)) = false
  /\ (is_set (delim p) && Ascii.eqb c (delim p))%bool = false
  /\ c = char_at (buf p) (skip_blanks (buf p) (pos p)).
Proof.
  unfold first_char; rewrite pre_check_cases; cbn zeta.
  destruct (pre_check_blocked (last_error p)).
  { split; [discriminate|intros (H & _); discriminate]. }
  destruct (at_line_end p _).
  { split; [discriminate|intros (_ & H & _); discriminate]. }
  destruct (is_set (delim p) && Ascii.eqb (char_at _ _) _)%bool eqn:E;
    cbn [with_pos buf pos].
  - split; [discriminate|]. intros (_ & _ & H & ->); congruence.
  - split.
    + intros H; injection H as <-; auto.
    + intros (_ & _ & _ & ->); reflexivity.
Qed.

Lemma first_char_pre_check p c adv :
  first_char p = Some c ->
  exists p1, read_table_pre_check adv p = (true, p1)
             /\ char_at (buf p1) (pos p1) = c.
Proof.
  unfold first_char.
  destruct (read_table_pre_check true p) as [[] p1] eqn:P; [|discriminate].
  intros H; injection H as <-.
  exists p1; split; [|reflexivity].
  eapply pre_check_true_any; exact P.
Qed.

Lemma unsigned_start_rejected k min max adv p c :
  is_signed k = false ->
  first_char p = Some c -> unsigned_start_ok c = false ->
  exists q,
    read_int_limits k min max adv p
    = (false, q, if is_16bit k then None else Some 0%Z)
    /\ last_error q = if Ascii.eqb c "-"%char then T_OVERFLOW else T_FORMAT.
Proof.
  intros S FC U.
  destruct (first_char_pre_check p c adv FC) as (p1 & P & C).
  rewrite read_int_limits_eq, P; cbn [negb].
  unfold convert_and_check, start_ok; rewrite S, C, U; cbn [orb negb].
  eexists; split.
  - destruct k; try discriminate S; reflexivity.
  - rewrite restore_pos_error; reflexivity.
Qed.

(** C2: an unsigned read (16, 32 or 64 bits, with the type's or the
    caller's bounds) of a field whose first character is [-] fails with
    [T_OVERFLOW]; if the first character is not alphanumeric, not [+] and
    not [-], it fails with [T_FORMAT]. *)
Theorem unsigned_read_rejects_sign {F : libc_double} (op : read_op) adv p c :
  is_unsigned_op op = true ->
  first_char p = Some c ->
  (c = "-"%char ->
   exists q o, read_next op adv p = (false, q, o) /\ last_error q = T_OVERFLOW)
  /\ (isalnum c = false -> c <> "+"%char -> c <> "-"%char ->
      exists q o, read_next op adv p = (false, q, o) /\ last_error q = T_FORMAT).
Proof.
  intros U FC.
  assert (K : exists k min max,
             is_signed k = false
             /\ read_next op adv p
                = as_value V_int (read_int_limits k min max adv p)).
  { destruct op as [k|k mn mx| | | | | | |]; try discriminate U; cbn in U;
      apply negb_true_iff in U;
      [exists k, (type_min k), (type_max k)|exists k, mn, mx];
      split; auto. }
  destruct K as (k & min & max & S & ->).
  split.
  - intros ->.
    destruct (unsigned_start_rejected k min max adv p "-"%char S FC eq_refl)
      as (q & -> & E).
    exists q; eexists; split; [reflexivity|exact E].
  - intros A NP NM.
    assert (U' : unsigned_start_ok c = false).
    { unfold unsigned_start_ok; rewrite A; cbn [orb].
      apply Ascii.eqb_neq; exact NP. }
    destruct (unsigned_start_rejected k min max adv p c S FC U')
      as (q & -> & E).
    exists q; eexists; split; [reflexivity|].
    rewrite E. apply Ascii.eqb_neq in NM; rewrite NM; reflexivity.
Qed.

Lemma unsigned_read_rejects_sign_witness :
  first_char (new_line_parser "  -5 7") = Some "-"%char
  /\ (exists q o,
        read_next (F := integral_double) (op_int U32) true
                  (new_line_parser "  -5 7") = (false, q, o)
        /\ last_error q = T_OVERFLOW).
Proof.
  split; [reflexivity|].
  apply (unsigned_read_rejects_sign (F := integral_double) (op_int U32) true
           (new_line_parser "  -5 7") "-"%char eq_refl eq_refl).
  reflexivity.
Defined.

(** ** Bounded integer fields *)

(** C3, counterexample.  The field [5000] read as [int16_t] with bounds
    [-3000, 4000] is well formed with value 5000; the read fails and the
    output is not assigned: it is not set to [max].  The field
    [99999999999999999999] read as [int32_t] with bounds [-5, 5] has a
    value above [max]; the conversion reports a range error, the read
    fails and the output is not assigned either. *)
Lemma bounded_read_output_not_clamped :
  (parsed_value I16 (new_line_parser "5000") = Some 5000%Z
   /\ ~ stores_or_clamps I16 (-3000) 4000 true (new_line_parser "5000") 5000)
  /\ (subject_sequence "99999999999999999999" 0 10
      = Some (false, 99999999999999999999%Z, 20)
      /\ ~ stores_or_clamps I32 (-5) 5 true
            (new_line_parser "99999999999999999999") 99999999999999999999).
Proof.
  split; (split; [reflexivity|]); intros (_ & H & _);
    destruct (H ltac:(lia)) as (_ & _ & E); discriminate E.
Qed.

Lemma bounded_read_converted k min max adv p v :
  (min <= max)%Z ->
  parsed_value k p = Some v ->
  stores_or_clamps_by_width k min max adv p v.
Proof.
  intros L PV; unfold parsed_value in PV.
  destruct (read_table_pre_check true p) as [ok p1] eqn:P.
  destruct ok; [|discriminate]; cbn [andb] in PV.
  destruct (start_ok k _) eqn:S; [|discriminate].
  destruct (read_table_post_check _ _ p1) as [r2 p2] eqn:PC.
  destruct r2; [|discriminate]; cbn [fst] in PV; injection PV as <-.
  unfold stores_or_clamps_by_width.
  rewrite read_int_limits_eq, (pre_check_true_any true adv p p1 P); cbn [negb].
  unfold convert_and_check; rewrite S, PC; cbn [negb].
  destruct (check_bounds_cases (conv_value (convert k p1)) min max p2 L)
    as [[R ->]|[[R ->]|[R ->]]]; cbn [andb negb];
    (split; [|split]); intros R'; try lia.
  - split; [reflexivity|]. rewrite andb_false_r; reflexivity.
  - rewrite restore_pos_error, andb_true_r; auto.
  - rewrite restore_pos_error, andb_true_r; auto.
Qed.

Lemma bounded_read_range_error k min max adv p :
  range_error k p = true ->
  exists q, read_int_limits k min max adv p = (false, q, None)
            /\ last_error q = T_OVERFLOW.
Proof.
  unfold range_error.
  destruct (read_table_pre_check true p) as [ok p1] eqn:P.
  destruct ok; [|discriminate]; cbn [andb].
  intros H. apply andb_true_iff in H as [H N].
  apply andb_true_iff in H as [S E].
  rewrite read_int_limits_eq, (pre_check_true_any true adv p p1 P); cbn [negb].
  unfold convert_and_check; rewrite S; cbn [negb].
  unfold read_table_post_check.
  destruct (conv_errno (convert k p1)); try discriminate E.
  apply negb_true_iff in N; rewrite N.
  eexists; split; [rewrite andb_true_r; destruct (is_16bit k); reflexivity|].
  rewrite restore_pos_error; reflexivity.
Qed.

(** C3, amended: for a bounded integer read with bounds [min <= max]:
    when the field is well formed and the conversion returns the value
    [v], the read succeeds and stores [v] if [min <= v <= max]; otherwise
    it fails with [T_OVERFLOW], and the 32- and 64-bit readers store the
    nearest bound while the 16-bit readers leave the output unassigned.
    When the conversion reports a range error instead (the value does not
    fit [long] or [unsigned long]), the read fails with [T_OVERFLOW] and
    no reader assigns the output. *)
Theorem bounded_read_stores_or_clamps k min max adv p :
  (min <= max)%Z ->
  (forall v, parsed_value k p = Some v ->
             stores_or_clamps_by_width k min max adv p v)
  /\ (range_error k p = true ->
      exists q, read_int_limits k min max adv p = (false, q, None)
                /\ last_error q = T_OVERFLOW).
Proof.
  intros L; split.
  - intros v PV; apply bounded_read_converted; assumption.
  - apply bounded_read_range_error.
Qed.

Lemma bounded_read_stores_or_clamps_witness :
  stores_or_clamps_by_width I64 (-5) 5 true (new_line_parser "9 1") 9
  /\ stores_or_clamps_by_width U16 10 20 false (new_line_parser "20") 20
  /\ (exists q,
        read_int_limits I32 (-5) 5 true (new_line_parser "99999999999999999999")
        = (false, q, None)
        /\ last_error q = T_OVERFLOW).
Proof.
  split; [|split].
  - apply (bounded_read_stores_or_clamps I64 (-5) 5 true
             (new_line_parser "9 1")); [lia|reflexivity].
  - apply (bounded_read_stores_or_clamps U16 10 20 false
             (new_line_parser "20")); [lia|reflexivity].
  - apply (bounded_read_stores_or_clamps I32 (-5) 5 true
             (new_line_parser "99999999999999999999")); [lia|reflexivity].
Defined.

Example int32_range_error_assigns_nothing :
  read_int32_limits (-5) 5 true (new_line_parser "99999999999999999999")
  = (false,
     mk_line_parser "99999999999999999999" 0 0 10 T_OVERFLOW NUL NUL true,
     None).
Proof. reflexivity. Qed.

Example int64_clamped_to_max :
  read_int64_limits (-5) 5 true (new_line_parser "9 1")
  = (false, mk_line_parser "9 1" 2 1 10 T_OVERFLOW NUL NUL true, Some 5%Z).
Proof. reflexivity. Qed.

Example bounds_are_inclusive :
  read_uint32_limits 10 20 true (new_line_parser "10 20 21")
  = (true, mk_line_parser "10 20 21" 3 1 10 T_OK NUL NUL true, Some 10%Z)
  /\ read_uint32_limits 10 20 true
       (mk_line_parser "10 20 21" 3 1 10 T_OK NUL NUL true)
     = (true, mk_line_parser "10 20 21" 6 2 10 T_OK NUL NUL true, Some 20%Z)
  /\ read_uint32_limits 10 20 true
       (mk_line_parser "10 20 21" 6 2 10 T_OK NUL NUL true)
     = (false, mk_line_parser "10 20 21" 8 2 10 T_OVERFLOW NUL NUL true,
        Some 20%Z).
Proof. repeat split. Qed.

(** ** The error left by a successful read *)

Section LastError.
Context {F : libc_double}.

Lemma skip_op_outcome adv p ret q o :
  read_next op_skip adv p = (ret, q, o) ->
  same_line p q
  /\ (ret = true -> last_error q = T_OK /\ col q = S (col p))
  /\ (ret = false -> last_error q = T_EOL /\ col q = col p).
Proof.
  cbn [read_next]. destruct (read_skip p) as [r q'] eqn:S.
  intros H; injection H as <- <- _. apply read_skip_outcome; exact S.
Qed.

Lemma op_classes (op : read_op) :
  is_numeric op = true \/ is_string_op op = true \/ op = op_skip.
Proof. destruct op; simpl; auto. Qed.


End LastError.



Example string_read_keeps_stale_error :
  let p := with_error T_FORMAT (new_line_parser "abc def") in
  read_string true p
  = (true, mk_line_parser "abc def" 3 0 10 T_FORMAT NUL NUL true, Some "abc").
Proof. reflexivity. Qed.

(** ** Non-advancing reads *)

Section Peek.
Context {F : libc_double}.

(** C5, amended: a numeric or string read with [advance_pos = false]
    leaves the position, the line buffer and the parameters as they
    were, whatever it returns; the column is not restored: it has moved
    by at most the number of fields the operation converts (none for a
    string, one for a number, two for a pair). *)
Theorem peek_keeps_position (op : read_op) p ret q o :
  op <> op_skip ->
  read_next op false p = (ret, q, o) ->
  pos q = pos p /\ same_line p q /\ col p <= col q <= col p + fields op.
Proof.
  intros NS R. destruct (op_classes op) as [N|[S|E]]; [| |contradiction].
  - apply numeric_outcome in R as (SL & C & PK & _); auto.
  - assert (Fz : fields op = 0) by (destruct op; try discriminate; reflexivity).
    apply string_op_outcome in R as (SL & C & PK & _); [|exact S].
    rewrite Fz; repeat split; try apply SL; auto; lia.
Qed.

End Peek.

(** C5, counterexample: peeking at the field [42] of the line [42 7] as
    an [int32_t] succeeds and moves the column from 0 to 1. *)
Lemma peek_increments_column :
  read_next (F := integral_double) (op_int I32) false (new_line_parser "42 7")
  = (true, mk_line_parser "42 7" 0 1 10 T_OK NUL NUL true, Some (V_int 42))
  /\ ~ peek_changes_nothing (F := integral_double) (op_int I32)
         (new_line_parser "42 7").
Proof.
  split; [reflexivity|].
  unfold peek_changes_nothing; cbn. intros (_ & H & _); discriminate H.
Qed.

Lemma peek_keeps_position_witness :
  pos (mk_line_parser "42 7" 0 1 10 T_OK NUL NUL true) = 0
  /\ same_line (new_line_parser "42 7")
               (mk_line_parser "42 7" 0 1 10 T_OK NUL NUL true)
  /\ 0 <= 1 <= 0 + 1.
Proof.
  apply (peek_keeps_position (F := integral_double) (op_int I32)
           (new_line_parser "42 7") true
           (mk_line_parser "42 7" 0 1 10 T_OK NUL NUL true)
           (Some (V_int 42))); [discriminate|reflexivity].
Defined.

(** [read_next] drops the flag for a skip, which moves on all the same. *)
Example skip_has_no_peek :
  read_next (F := integral_double) op_skip false (new_line_parser "42 7")
  = (true, mk_line_parser "42 7" 2 1 10 T_OK NUL NUL true, None).
Proof. reflexivity. Qed.

(** ** The variadic [read] *)

Section Sequence.
Context {F : libc_double}.

Lemma read_cons op rest p :
  read (op :: rest) p =
    let '(ret, p1, o) := read_next op true p in
    if ret then let '(ret', p2, os) := read rest p1 in (ret', p2, o :: os)
    else (false, p1, [o]).
Proof.
  cbn [read]. destruct (read_next op true p) as [[[] p1] o]; reflexivity.
Qed.

(** [read] succeeds exactly when every operation succeeds in turn, each
    on the cursor its predecessor left; one value slot per operation is
    returned. *)
Lemma read_success_iff ops p q outs :
  read ops p = (true, q, outs) <->
  match ops with
  | [] => q = p /\ outs = []
  | op :: rest =>
      exists p1 o os,
        read_next op true p = (true, p1, o)
        /\ read rest p1 = (true, q, os) /\ outs = o :: os
  end.
Proof.
  destruct ops as [|op rest].
  - cbn; split.
    + intros H; injection H as <- <-; auto.
    + intros [-> ->]; reflexivity.
  - rewrite read_cons.
    destruct (read_next op true p) as [[[] p1] o].
    + destruct (read rest p1) as [[r2 p2] os] eqn:R2; split.
      * intros H; injection H as -> <- <-.
        exists p1, o, os; auto.
      * intros (p1' & o' & os' & H1 & H2 & ->).
        injection H1 as <- <-. rewrite R2 in H2.
        injection H2 as -> -> ->; reflexivity.
    + split; [discriminate|].
      intros (p1' & o' & os' & H1 & _); discriminate.
Qed.

(** X14: a failing [read] has run a prefix of the operations with success,
    then the first failing one, and nothing after it: the cursor and
    [last_error] are those the failing operation left, and the values
    assigned by the prefix are all there. *)
Lemma read_stops_at_first_failure ops p q outs :
  read ops p = (false, q, outs) ->
  exists done op rest p1 outs1 o,
    ops = (done ++ op :: rest)%list
    /\ read done p = (true, p1, outs1)
    /\ read_next op true p1 = (false, q, o)
    /\ outs = (outs1 ++ [o])%list.
Proof.
  revert p q outs; induction ops as [|op ops IH]; intros p q outs.
  - discriminate.
  - rewrite read_cons.
    destruct (read_next op true p) as [[[] p1] o] eqn:R.
    + destruct (read ops p1) as [[r2 p2] os] eqn:R2.
      intros H; injection H as -> <- <-.
      destruct (IH _ _ _ R2) as (done & op' & rest & p1' & outs1 & o' &
                                 -> & D & N & ->).
      exists (op :: done), op', rest, p1', (o :: outs1), o'.
      repeat split; auto.
      rewrite read_cons, R, D; reflexivity.
    + intros H; injection H as <- <-.
      exists [], op, ops, p, [], o; repeat split; auto.
Qed.

Lemma read_next_column op adv p ret q o :
  read_next op adv p = (ret, q, o) ->
  same_line p q /\ col p <= col q <= col p + fields op.
Proof.
  intros R. destruct (op_classes op) as [N|[S| ->]].
  - apply numeric_outcome in R as (SL & C & _); auto.
  - assert (Fz : fields op = 0) by (destruct op; try discriminate; reflexivity).
    apply string_op_outcome in R as (SL & C & _); [|exact S].
    split; [exact SL|lia].
  - apply skip_op_outcome in R as (SL & OK & KO).
    split; [exact SL|]. cbn [fields].
    destruct ret; [destruct (OK eq_refl)|destruct (KO eq_refl)]; lia.
Qed.

(** The column after [read] is at most the number of fields the
    operations can convert. *)
Lemma read_column_bound ops p ret q outs :
  read ops p = (ret, q, outs) ->
  same_line p q
  /\ col p <= col q <= col p + list_sum (map fields ops).
Proof.
  revert p ret q outs; induction ops as [|op ops IH]; intros p ret q outs.
  - cbn; intros H; injection H as <- <- <-; split; [apply same_line_refl|lia].
  - rewrite read_cons.
    change (list_sum (map fields (op :: ops)))
      with (fields op + list_sum (map fields ops)).
    destruct (read_next op true p) as [[r1 p1] o] eqn:R.
    apply read_next_column in R as (SL & C).
    destruct r1.
    + destruct (read ops p1) as [[r2 p2] os] eqn:R2.
      apply IH in R2 as (SL2 & C2).
      intros H; injection H as <- <- <-.
      split; [eapply same_line_trans; eassumption|lia].
    + intros H; injection H as <- <- <-.
      split; [exact SL|lia].
Qed.

End Sequence.

(** C6: the line [1 2 3] read as three [int32_t].  The read succeeds and
    assigns 1, 2 and 3, and the column is 2, not 3: the post-check returns
    at the end of the line before it counts the field. *)
Theorem read_does_not_count_last_field :
  read (F := integral_double) [op_int I32; op_int I32; op_int I32]
       (new_line_parser "1 2 3")
  = (true, mk_line_parser "1 2 3" 5 2 10 T_OK NUL NUL true,
     [Some (V_int 1); Some (V_int 2); Some (V_int 3)]).
Proof. reflexivity. Qed.

(** A string field is not counted either, wherever it stands. *)
Lemma read_does_not_count_string :
  read (F := integral_double) [op_string; op_int U32]
       (new_line_parser "abc 7 ")
  = (true, mk_line_parser "abc 7 " 6 0 10 T_OK NUL NUL true,
     [Some (V_string "abc"); Some (V_int 7)]).
Proof. reflexivity. Qed.

(** The scenario of the test program: bounded [uint32_t], bounded
    [double], skip, bounded [int16_t]. *)
Example read_mixed_line :
  read (F := integral_double)
       [op_int_bounds U32 0 100;
        op_double_bounds (F := integral_double) (-180)%Z 180%Z; op_skip;
        op_int_bounds I16 (-3000) 4000]
       (new_line_parser "42 -12 hello 7")
  = (true, mk_line_parser "42 -12 hello 7" 14 3 10 T_OK NUL NUL true,
     [Some (V_int 42); Some (V_double (F := integral_double) (-12)%Z); None;
      Some (V_int 7)]).
Proof. reflexivity. Qed.

Example read_stops_on_overflow :
  read (F := integral_double) [op_int I32; op_double]
       (new_line_parser "  100000000000 3")
  = (false,
     mk_line_parser "  100000000000 3" 15 1 10 T_OVERFLOW NUL NUL true,
     [Some (V_int INT32_MAX)]).
Proof. reflexivity. Qed.

(** ** Empty fields *)

Lemma get_length s : String.get (String.length s) s = None.
Proof. induction s as [|c s IH]; simpl; [reflexivity|exact IH]. Qed.

Lemma char_at_length s : char_at s (String.length s) = NUL.
Proof. unfold char_at; rewrite get_length; reflexivity. Qed.

(** On the delimiter the pre-check fails with [T_MISSING], peek or not. *)
Lemma pre_check_on_delimiter adv p :
  pre_check_blocked (last_error p) = false ->
  is_set (delim p) = true ->
  char_at (buf p) (skip_blanks (buf p) (pos p)) = delim p ->
  delim p <> NL -> delim p <> comment p ->
  exists q, read_table_pre_check adv p = (false, q)
            /\ last_error q = T_MISSING.
Proof.
  intros B D C NN NC. rewrite pre_check_cases; cbn zeta. rewrite B.
  assert (A : at_line_end p (skip_blanks (buf p) (pos p)) = false).
  { unfold at_line_end. rewrite C.
    apply orb_false_iff; split; [apply orb_false_iff; split|].
    - apply Nat.eqb_neq; intros E. rewrite E, char_at_length in C.
      unfold is_set in D. rewrite <- C, Ascii.eqb_refl in D; discriminate.
    - apply Ascii.eqb_neq; exact NN.
    - apply andb_false_iff; right; apply Ascii.eqb_neq; exact NC. }
  rewrite A, D, C, Ascii.eqb_refl; cbn [andb].
  eexists; split; reflexivity.
Qed.

Section Missing.
Context {F : libc_double}.

(** A numeric read whose pre-check fails returns failure with the error
    the pre-check left. *)
Lemma numeric_read_pre_check_fails (op : read_op) adv p e :
  is_numeric op = true ->
  (forall a, exists q, read_table_pre_check a p = (false, q)
                       /\ last_error q = e) ->
  exists q o, read_next op adv p = (false, q, o) /\ last_error q = e.
Proof.
  intros N P.
  destruct op; try discriminate N; cbn [read_next];
    try (rewrite read_int_limits_eq; destruct (P adv) as (q0 & -> & E);
         cbn; eauto);
    try (unfold read_double, read_double_limits;
         destruct (P adv) as (q0 & -> & E); cbn; eauto);
    unfold read_two, read_double, read_double_limits;
    destruct (P true) as (q0 & -> & E); cbn;
    do 2 eexists; (split; [reflexivity|]);
    rewrite restore_pos_error; exact E.
Qed.

(** C7: with a delimiter configured, a numeric read that finds the
    delimiter as the first character after the blanks fails with
    [T_MISSING] (the cursor can be read, and the delimiter is neither the
    newline nor the comment character, which the pre-check tests first);
    without a delimiter no read fails with [T_MISSING]. *)
Theorem empty_field_is_missing (op : read_op) adv p :
  (is_numeric op = true ->
   pre_check_blocked (last_error p) = false ->
   is_set (delim p) = true ->
   char_at (buf p) (skip_blanks (buf p) (pos p)) = delim p ->
   delim p <> NL -> delim p <> comment p ->
   exists q o, read_next op adv p = (false, q, o)
               /\ last_error q = T_MISSING)
  /\ (is_set (delim p) = false ->
      forall q o, read_next op adv p = (false, q, o) ->
                  last_error q <> T_MISSING).
Proof.
  split.
  - intros N B D C NN NC.
    apply numeric_read_pre_check_fails; [exact N|].
    intros a; apply pre_check_on_delimiter; assumption.
  - intros D q o R. destruct (op_classes op) as [N|[S| ->]].
    + apply numeric_outcome in R as (_ & _ & _ & _ & M & _); auto.
    + apply string_op_outcome in R as (_ & _ & _ & _ & M); auto.
    + apply skip_op_outcome in R as (_ & _ & KO).
      destruct (KO eq_refl) as [-> _]; discriminate.
Qed.

End Missing.

Lemma empty_field_is_missing_witness :
  let p := mk_line_parser "1,,3" 2 1 10 T_OK ","%char NUL true in
  exists q o,
    read_next (F := integral_double) (op_int U32) true p = (false, q, o)
    /\ last_error q = T_MISSING.
Proof.
  apply (empty_field_is_missing (F := integral_double) (op_int U32) true
           (mk_line_parser "1,,3" 2 1 10 T_OK ","%char NUL true));
    try reflexivity; discriminate.
Defined.

(** The scenario: delimiter [,], line [1,,3], three [uint32_t]. *)
Example read_empty_field :
  read (F := integral_double) [op_int U32; op_int U32; op_int U32]
       (set_delim ","%char (new_line_parser "1,,3"))
  = (false, mk_line_parser "1,,3" 2 1 10 T_MISSING ","%char NUL true,
     [Some (V_int 1); None]).
Proof. reflexivity. Qed.

(** ** Tokens glued to a number *)

Section Glued.
Context {F : libc_double}.

Lemma int_read_converts k min max adv p p1 q o :
  read_table_pre_check adv p = (true, p1) ->
  read_int_limits k min max adv p = (true, q, o) ->
  start_ok k (char_at (buf p1) (pos p1)) = true
  /\ fst (read_table_post_check (conv_end (convert k p1))
                                (conv_errno (convert k p1)) p1) = true.
Proof.
  intros P; rewrite read_int_limits_eq, P; cbn [negb].
  unfold convert_and_check.
  destruct (start_ok k _); cbn [negb]; [|discriminate].
  destruct (read_table_post_check _ _ p1) as [[] p2]; [auto|discriminate].
Qed.

Lemma int_read_glued k min max adv p p1 :
  read_table_pre_check adv p = (true, p1) ->
  start_ok k (char_at (buf p1) (pos p1)) = true ->
  conv_errno (convert k p1) = E_NONE ->
  is_set (delim p1) = false ->
  conv_end (convert k p1) <> pos p1 ->
  terminated p1 (conv_end (convert k p1)) = false ->
  exists q o, read_int_limits k min max adv p = (false, q, o)
              /\ last_error q = T_FORMAT.
Proof.
  intros P S E D N T; rewrite read_int_limits_eq, P; cbn [negb].
  unfold convert_and_check; rewrite S, E; cbn [negb].
  rewrite (post_check_glued _ _ D N T).
  do 2 eexists; split; [reflexivity|].
  rewrite restore_pos_error; reflexivity.
Qed.

Lemma terminated_frame p q i :
  same_line p q -> terminated q i = terminated p i.
Proof.
  intros (B & _ & _ & C & _); unfold terminated.
  rewrite (at_line_end_frame p q i B C), B; reflexivity.
Qed.

(** C8: without a delimiter, a one-field numeric read that succeeds has
    converted text that is followed by the end of the line, a newline,
    the comment character or a blank; and when the conversion succeeds
    but stops on any other character, the read fails with [T_FORMAT]. *)
Theorem glued_token_is_format_error (op : read_op) adv p p1 :
  is_set (delim p) = false ->
  read_table_pre_check adv p = (true, p1) ->
  (is_single_numeric op = true ->
   forall q o, read_next op adv p = (true, q, o) ->
               exists c2 e, conversion_end op p1 = Some (c2, e)
                            /\ terminated p c2 = true)
  /\ (forall c2, conversion_end op p1 = Some (c2, E_NONE) ->
                 c2 <> pos p1 -> terminated p c2 = false ->
                 exists q o, read_next op adv p = (false, q, o)
                             /\ last_error q = T_FORMAT).
Proof.
  intros D P.
  pose proof (pre_check_true _ _ _ P) as (Ep1 & _).
  assert (SL : same_line p p1) by (rewrite Ep1; apply same_line_with_pos).
  assert (D1 : is_set (delim p1) = false)
    by (destruct SL as (_ & _ & -> & _); exact D).
  split.
  - intros N q o R.
    destruct op; try discriminate N; cbn [read_next conversion_end] in *.
    + apply as_value_inv in R as (o' & R & _).
      destruct (int_read_converts _ _ _ _ _ _ _ _ P R) as (S & PC).
      rewrite S; do 2 eexists; split; [reflexivity|].
      destruct (read_table_post_check _ _ p1) as [r p2] eqn:E.
      cbn in PC; subst r.
      apply post_check_true in E as (_ & _ & _ & _ & _ & T).
      rewrite <- (terminated_frame p p1 _ SL); auto.
    + apply as_value_inv in R as (o' & R & _).
      destruct (int_read_converts _ _ _ _ _ _ _ _ P R) as (S & PC).
      rewrite S; do 2 eexists; split; [reflexivity|].
      destruct (read_table_post_check _ _ p1) as [r p2] eqn:E.
      cbn in PC; subst r.
      apply post_check_true in E as (_ & _ & _ & _ & _ & T).
      rewrite <- (terminated_frame p p1 _ SL); auto.
    + apply as_value_inv in R as (o' & R & _).
      unfold read_double in R; rewrite P in R; cbn [negb] in R.
      destruct (strtod (buf p1) (pos p1)) as [[d c2] e].
      do 2 eexists; split; [reflexivity|].
      destruct (read_table_post_check c2 e p1) as [[] p2] eqn:E.
      * apply post_check_true in E as (_ & _ & _ & _ & _ & T).
        rewrite <- (terminated_frame p p1 _ SL); auto.
      * cbn [andb] in R; discriminate.
    + apply as_value_inv in R as (o' & R & _).
      unfold read_double_limits in R; rewrite P in R; cbn [negb] in R.
      destruct (strtod (buf p1) (pos p1)) as [[d c2] e].
      do 2 eexists; split; [reflexivity|].
      destruct (read_table_post_check c2 e p1) as [[] p2] eqn:E.
      * apply post_check_true in E as (_ & _ & _ & _ & _ & T).
        rewrite <- (terminated_frame p p1 _ SL); auto.
      * discriminate.
  - intros c2 CE N T.
    rewrite <- (terminated_frame p p1 _ SL) in T.
    destruct op; try discriminate CE; cbn [read_next conversion_end] in *.
    + destruct (start_ok k _) eqn:S; [|discriminate].
      injection CE as <- E.
      destruct (int_read_glued k (type_min k) (type_max k) adv p p1
                  P S E D1 N T) as (q & o & -> & L).
      do 2 eexists; split; [reflexivity|exact L].
    + destruct (start_ok k _) eqn:S; [|discriminate].
      injection CE as <- E.
      destruct (int_read_glued k min max adv p p1 P S E D1 N T)
        as (q & o & -> & L).
      do 2 eexists; split; [reflexivity|exact L].
    + unfold read_double; rewrite P; cbn [negb].
      destruct (strtod (buf p1) (pos p1)) as [[d c2'] e].
      injection CE as -> ->.
      rewrite (post_check_glued _ _ D1 N T); cbn [andb].
      do 2 eexists; split; [reflexivity|].
      rewrite restore_pos_error; reflexivity.
    + unfold read_double_limits; rewrite P; cbn [negb].
      destruct (strtod (buf p1) (pos p1)) as [[d c2'] e].
      injection CE as -> ->.
      rewrite (post_check_glued _ _ D1 N T).
      do 2 eexists; split; [reflexivity|].
      rewrite restore_pos_error; reflexivity.
Qed.

End Glued.

Lemma glued_token_is_format_error_witness :
  exists q o,
    read_next (F := integral_double) (op_int I32) true
              (new_line_parser "123abc") = (false, q, o)
    /\ last_error q = T_FORMAT.
Proof.
  apply (glued_token_is_format_error (F := integral_double) (op_int I32) true
           (new_line_parser "123abc") (new_line_parser "123abc")
           eq_refl eq_refl) with (c2 := 3);
    [reflexivity|discriminate|reflexivity].
Defined.

Example read_123abc :
  read_int32 true (new_line_parser "123abc")
  = (false, mk_line_parser "123abc" 3 0 10 T_FORMAT NUL NUL true, None).
Proof. reflexivity. Qed.

(** ** Line acquisition *)

(** In the states its guard names, [read_line] returns failure and
    changes nothing: neither the cursor nor the stream. *)
Lemma read_line_blocked_noop skip r :
  read_line_blocked (last_error (lp r)) = true ->
  read_line skip r = Some (false, r).
Proof. intros B; unfold read_line; rewrite B; reflexivity. Qed.

Lemma take_line_rest s l rest :
  take_line s = (l, Some rest) -> String.length rest < String.length s.
Proof.
  revert l; induction s as [|c s IH]; intros l; simpl; [discriminate|].
  destruct (Ascii.eqb c NL).
  - intros H; injection H as _ <-; lia.
  - destruct (take_line s) as [l' r'] eqn:T.
    intros H; injection H as _ ->.
    specialize (IH l' eq_refl); lia.
Qed.

(** The loop of [read_line] comes to an end within the fuel that
    [read_line] gives it. *)
Lemma read_line_loop_total skip fuel r :
  String.length (unread (is_ r)) < fuel ->
  read_line_loop skip fuel r <> None.
Proof.
  revert r; induction fuel as [|fuel IH]; intros r L; [lia|].
  cbn [read_line_loop]. unfold getline.
  destruct (eofbit (is_ r) || failbit (is_ r))%bool.
  - cbn. destruct (eofbit (is_ r)); discriminate.
  - destruct (take_line (unread (is_ r))) as [l [rest|]] eqn:T.
    + apply take_line_rest in T. cbn [eofbit failbit].
      destruct skip; [|discriminate].
      destruct (Nat.ltb _ _).
      * destruct (is_set _ && _)%bool; [|discriminate].
        apply IH; cbn; lia.
      * apply IH; cbn; lia.
    + cbn; discriminate.
Qed.

(** X17: [read_line] always returns: whatever the stream holds and
    however many blank or comment lines are skipped, the [while(1)] loop
    is left within one turn more than there are unread characters. *)
Lemma read_line_total skip r : read_line skip r <> None.
Proof.
  unfold read_line.
  destruct (read_line_blocked _); [discriminate|].
  destruct (eofbit (is_ r)); [discriminate|].
  pose proof (read_line_loop_total skip (read_line_fuel r) r) as T.
  destruct (read_line_loop skip (read_line_fuel r) r) as [[[] r1]|];
    try discriminate.
  apply T; unfold read_line_fuel; lia.
Qed.

(** C9: [read_line] in the read-failure state.  The caller's stream has
    [failbit] set, so the first [read_line] fails with [T_READ_ERROR].
    After the caller clears the stream's state, [read_line] on the same
    reader does not return at its guard: it fetches the line [1 2] and
    resets [last_error] to [T_OK]. *)
Theorem read_line_retries_after_read_error :
  exists r1,
    read_line true
      (new_read_table2 (mk_istream ("1 2" ++ String NL "") false true))
    = Some (false, r1)
    /\ last_error (lp r1) = T_READ_ERROR
    /\ read_line true
         (mk_read_table2 (lp r1) (istream_clear (is_ r1)) (line r1))
       = Some (true,
               mk_read_table2 (mk_line_parser "1 2" 0 0 10 T_OK NUL NUL true)
                              (mk_istream "" false false) 1).
Proof. eexists; repeat split. Qed.

(** While the stream stays failed, the call runs [std::getline] again and
    reports [T_READ_ERROR] once more. *)
Lemma read_line_on_failed_stream skip r :
  last_error (lp r) = T_READ_ERROR ->
  eofbit (is_ r) = false -> failbit (is_ r) = true ->
  read_line skip r = Some (false, r).
Proof.
  destruct r as [[b ps c bs le d cm an] [u e f] n]; cbn.
  intros -> -> ->; reflexivity.
Qed.

(** ** Moving *)

(** What both moves do transfer, and what they leave behind. *)
Lemma move_transfers lp0 garbage this :
  let moved (r : line_parser * line_parser) :=
    buf (fst r) = buf lp0 /\ pos (fst r) = pos lp0 /\ col (fst r) = col lp0
    /\ last_error (fst r) = last_error lp0 /\ base (fst r) = base lp0
    /\ comment (fst r) = comment lp0
    /\ allow_nan_inf (fst r) = allow_nan_inf lp0
    /\ last_error (snd r) = T_COPIED /\ pos (snd r) = 0 /\ col (snd r) = 0 in
  moved (move_construct garbage lp0) /\ moved (move_assign this lp0).
Proof. cbn; repeat split. Qed.

(** C10: move assignment of a parser configured with the delimiter [,]
    to a parser that has none.  The destination gets the line, position,
    column, error, base, comment character and NaN flag of the source, but
    not its delimiter: it keeps its own, and reads the line in whitespace
    mode. *)
Theorem move_drops_delimiter :
  let src := set_delim ","%char (new_line_parser "1,2") in
  let dst := new_line_parser "" in
  let '(dst', src') := move_assign dst src in
  delim src = ","%char
  /\ delim dst' = NUL
  /\ buf dst' = "1,2"
  /\ last_error src' = T_COPIED
  /\ read_int32 true src
     = (true, mk_line_parser "1,2" 2 1 10 T_OK ","%char NUL true, Some 1%Z)
  /\ read_int32 true dst'
     = (false, mk_line_parser "1,2" 1 0 10 T_FORMAT NUL NUL true, None).
Proof. repeat split. Qed.

(** The move constructor leaves the delimiter of the new object to
    whatever its storage held; the copy constructor carries it over. *)
Lemma move_construct_delimiter garbage lp0 :
  delim (fst (move_construct garbage lp0)) = garbage
  /\ delim (copy_construct lp0) = delim lp0.
Proof. split; reflexivity. Qed.


(** * Further properties of the parser *)

(** ** Scanning loops *)

Lemma get_beyond s i : String.length s <= i -> String.get i s = None.
Proof.
  revert i; induction s as [|c s IH]; intros i L; [destruct i; reflexivity|].
  destruct i as [|i]; simpl in *; [lia|apply IH; lia].
Qed.

Lemma char_at_beyond s i : String.length s <= i -> char_at s i = NUL.
Proof. intros L; unfold char_at; rewrite get_beyond by exact L; reflexivity. Qed.

Lemma scan_loop_bounds stop s fuel i :
  i <= scan_loop stop s fuel i <= i + fuel.
Proof.
  revert i; induction fuel as [|fuel IH]; intros i; simpl; [lia|].
  destruct (stop (char_at s i)); [lia|]. specialize (IH (S i)); lia.
Qed.

(** The characters the loop has passed did not stop it. *)
Lemma scan_loop_passed stop s fuel i j :
  i <= j < scan_loop stop s fuel i -> stop (char_at s j) = false.
Proof.
  revert i; induction fuel as [|fuel IH]; intros i; simpl; [lia|].
  destruct (stop (char_at s i)) eqn:E; [lia|].
  intros [L U]. destruct (Nat.eq_dec i j) as [<-|N]; [exact E|].
  apply (IH (S i)); lia.
Qed.

(** Where the loop stands with fuel left, the character stops it. *)
Lemma scan_loop_stopped stop s fuel i :
  scan_loop stop s fuel i < i + fuel ->
  stop (char_at s (scan_loop stop s fuel i)) = true.
Proof.
  revert i; induction fuel as [|fuel IH]; intros i; simpl; [lia|].
  destruct (stop (char_at s i)) eqn:E; [intros _; exact E|].
  intros L; apply IH; lia.
Qed.

Lemma scan_ge stop s i : i <= scan stop s i.
Proof. unfold scan; apply scan_loop_bounds. Qed.

Lemma scan_le stop s i :
  i <= String.length s -> scan stop s i <= String.length s.
Proof.
  intros L; unfold scan.
  pose proof (scan_loop_bounds stop s (String.length s - i) i); lia.
Qed.

Lemma scan_passed stop s i j :
  i <= j < scan stop s i -> stop (char_at s j) = false.
Proof. unfold scan; apply scan_loop_passed. Qed.

Lemma scan_stopped stop s i :
  scan stop s i < String.length s -> stop (char_at s (scan stop s i)) = true.
Proof.
  intros L; unfold scan in *. apply scan_loop_stopped.
  pose proof (scan_loop_bounds stop s (String.length s - i) i); lia.
Qed.

Lemma blanks_loop_bounds s fuel c hb :
  c <= fst (blanks_loop s fuel c hb) <= c + fuel.
Proof.
  revert c hb; induction fuel as [|fuel IH]; intros c hb; simpl; [lia|].
  destruct (negb (is_blank (char_at s c))); simpl; [lia|].
  specialize (IH (S c) true); lia.
Qed.

(** ** Where the C conversions end *)

Lemma digits_loop_bounds b s fuel i acc :
  i <= snd (digits_loop b s fuel i acc) <= i + fuel.
Proof.
  revert i acc; induction fuel as [|fuel IH]; intros i acc; simpl; [lia|].
  destruct (digit_value (char_at s i)) as [d|]; simpl; [|lia].
  destruct (Z.ltb d b); simpl; [|lia].
  specialize (IH (S i) (acc * b + d)%Z); lia.
Qed.

Lemma is_digit_in_inside b s i :
  is_digit_in b (char_at s i) = true -> i < String.length s.
Proof.
  intros D. destruct (Nat.lt_ge_cases i (String.length s)) as [L|L]; [exact L|].
  rewrite char_at_beyond in D by exact L; discriminate D.
Qed.

(** The subject sequence lies between the start and the end of the text. *)
Lemma subject_sequence_bounds s start b negative m e :
  subject_sequence s start b = Some (negative, m, e) ->
  start <= e /\ (start <= String.length s -> e <= String.length s).
Proof.
  unfold subject_sequence; cbv zeta.
  set (i := scan (fun c => negb (isspace c)) s start).
  set (i1 := if (_ || _)%bool then S i else i).
  set (has_0x := (_ && _ && _)%bool).
  set (radix := if Z.eqb b 0 then _ else b).
  set (i2 := if (Z.eqb radix 16 && has_0x)%bool then S (S i1) else i1).
  destruct (is_digit_in radix (char_at s i2)) eqn:D; [|discriminate].
  apply is_digit_in_inside in D.
  destruct (digits_loop radix s (String.length s - i2) i2 0) as [m' e'] eqn:DL.
  intros H; injection H as _ _ <-.
  pose proof (digits_loop_bounds radix s (String.length s - i2) i2 0%Z) as B.
  rewrite DL in B; cbn [snd] in B.
  assert (A0 : start <= i) by apply scan_ge.
  assert (A1 : i <= i1) by (unfold i1; destruct (_ || _)%bool; lia).
  assert (A2 : i1 <= i2)
    by (unfold i2; destruct (Z.eqb radix 16 && has_0x)%bool; lia).
  clearbody i i1 i2 radix has_0x. lia.
Qed.

Lemma strtol_end s start b :
  start <= conv_end (strtol s start b)
  /\ (start <= String.length s -> conv_end (strtol s start b) <= String.length s).
Proof.
  unfold strtol. destruct (negb (valid_base b)); [cbn; lia|].
  destruct (subject_sequence s start b) as [[[n m] e]|] eqn:S; [|cbn; lia].
  apply subject_sequence_bounds in S.
  destruct (Z.ltb LONG_MAX _); [exact S|].
  destruct (Z.ltb _ LONG_MIN); exact S.
Qed.

Lemma strtoul_end s start b :
  start <= conv_end (strtoul s start b)
  /\ (start <= String.length s -> conv_end (strtoul s start b) <= String.length s).
Proof.
  unfold strtoul. destruct (negb (valid_base b)); [cbn; lia|].
  destruct (subject_sequence s start b) as [[[n m] e]|] eqn:S; [|cbn; lia].
  apply subject_sequence_bounds in S.
  destruct (Z.ltb ULONG_MAX m); [exact S|]. destruct n; exact S.
Qed.

Lemma convert_end k p1 :
  pos p1 <= conv_end (convert k p1)
  /\ (pos p1 <= String.length (buf p1) ->
      conv_end (convert k p1) <= String.length (buf p1)).
Proof.
  destruct k; unfold convert, strtoll, strtoull;
    try destruct use_long; try destruct use_ulong;
    first [apply strtol_end|apply strtoul_end].
Qed.

(** ** The position stays inside the line *)

Lemma position_kept_refl p :
  pos p <= String.length (buf p) -> position_kept p p.
Proof. unfold position_kept; auto. Qed.

Lemma position_kept_trans p q r :
  position_kept p q -> position_kept q r -> position_kept p r.
Proof.
  unfold position_kept; intros (B1 & L1) (B2 & L2).
  rewrite B1 in *; split; [congruence|lia].
Qed.

Lemma position_kept_error e p q :
  position_kept p q -> position_kept p (with_error e q).
Proof. auto. Qed.

Lemma position_kept_col n p q :
  position_kept p q -> position_kept p (with_col n q).
Proof. auto. Qed.

Lemma position_kept_restore adv p q :
  position_kept p q -> position_kept p (restore_pos adv (pos p) q).
Proof.
  destruct adv; [auto|]. unfold position_kept; cbn.
  intros (B & L); split; [exact B|lia].
Qed.

Lemma at_line_end_inside p i :
  at_line_end p i = false -> i <> String.length (buf p).
Proof.
  unfold at_line_end; intros H E; subst i.
  rewrite Nat.eqb_refl in H; discriminate H.
Qed.

Lemma pre_check_position adv p ok q :
  pos p <= String.length (buf p) ->
  read_table_pre_check adv p = (ok, q) -> position_kept p q.
Proof.
  intros L; rewrite pre_check_cases; cbn zeta.
  pose proof (scan_ge (fun c => negb (is_blank c)) (buf p) (pos p)) as G.
  pose proof (scan_le (fun c => negb (is_blank c)) (buf p) (pos p) L) as U.
  fold (skip_blanks (buf p) (pos p)) in G, U.
  destruct (pre_check_blocked _).
  - intros H; injection H as _ <-; apply position_kept_refl; exact L.
  - destruct (at_line_end p _); [|destruct (_ && _)%bool];
      intros H; injection H as _ <-; unfold position_kept; cbn;
      destruct adv; auto; split; auto; lia.
Qed.

Lemma post_check_position c2 e p ret q :
  pos p <= c2 <= String.length (buf p) ->
  read_table_post_check c2 e p = (ret, q) -> position_kept p q.
Proof.
  intros [L U]; unfold read_table_post_check.
  assert (K : position_kept p p) by (apply position_kept_refl; lia).
  destruct e;
    try (intros H; injection H as _ <-; exact K);
    destruct (Nat.eqb c2 (pos p));
    try (intros H; injection H as _ <-; exact K).
  pose proof (blanks_loop_bounds (buf p) (String.length (buf p) - c2) c2 false)
    as B.
  destruct (blanks_loop _ _ _ _) as [pos1 hb]; cbn [fst] in B.
  set (p1 := with_error T_OK (with_pos pos1 p)).
  assert (K1 : position_kept p p1) by (unfold position_kept; cbn; split; [auto|lia]).
  destruct (at_line_end p1 pos1) eqn:A.
  - intros H; injection H as _ <-; exact K1.
  - apply at_line_end_inside in A; cbn [p1 with_error with_pos buf] in A.
    destruct (negb (is_set (delim p1)) && negb hb)%bool.
    + intros H; injection H as _ <-; exact K1.
    + destruct (is_set (delim p1)).
      * destruct (negb (Ascii.eqb _ _)); intros H; injection H as _ <-;
          [exact K1|]. unfold position_kept; cbn; split; [auto|lia].
      * intros H; injection H as _ <-; exact K1.
Qed.

Lemma check_bounds_position res min max p q ret q' o :
  position_kept p q ->
  check_bounds res min max q = (ret, q', o) -> position_kept p q'.
Proof.
  intros K; unfold check_bounds. destruct (_ || _)%bool;
    intros H; injection H as _ <- _; exact K.
Qed.

Lemma convert_and_check_position k min max p1 ret q o :
  pos p1 <= String.length (buf p1) ->
  convert_and_check k min max p1 = (ret, q, o) -> position_kept p1 q.
Proof.
  intros L; unfold convert_and_check.
  destruct (negb (start_ok k _)).
  - intros H; injection H as _ <- _.
    apply position_kept_error, position_kept_refl; exact L.
  - destruct (read_table_post_check _ _ p1) as [r p2] eqn:P.
    apply post_check_position in P;
      [|destruct (convert_end k p1); split; auto].
    destruct r.
    + apply check_bounds_position; exact P.
    + intros H; injection H as _ <- _; exact P.
Qed.

Lemma int_read_position k min max adv p ret q o :
  pos p <= String.length (buf p) ->
  read_int_limits k min max adv p = (ret, q, o) -> position_kept p q.
Proof.
  intros L; rewrite read_int_limits_eq.
  destruct (read_table_pre_check adv p) as [ok p1] eqn:P.
  apply pre_check_position in P; [|exact L].
  destruct ok; cbn [negb].
  - destruct (convert_and_check k min max p1) as [[r p3] i] eqn:C.
    apply convert_and_check_position in C;
      [|destruct P as (-> & P); lia].
    intros H; injection H as _ <- _.
    apply position_kept_restore. eapply position_kept_trans; eassumption.
  - intros H; injection H as _ <- _; exact P.
Qed.

Lemma read_skip_position p ret q :
  pos p <= String.length (buf p) ->
  read_skip p = (ret, q) -> position_kept p q.
Proof.
  intros L; unfold read_skip.
  destruct (is_set (delim p)).
  - pose proof (scan_ge (fun c => Ascii.eqb c (delim p)) (buf p) (pos p)) as G.
    pose proof (scan_le (fun c => Ascii.eqb c (delim p)) (buf p) (pos p) L) as U.
    destruct (Nat.eqb _ _) eqn:E; intros H; injection H as _ <-;
      unfold position_kept; cbn; (split; [reflexivity|]); [lia|].
    apply Nat.eqb_neq in E; lia.
  - pose proof (scan_ge (fun c => negb (is_blank c)) (buf p) (pos p)) as G.
    pose proof (scan_le (fun c => negb (is_blank c)) (buf p) (pos p) L) as U.
    fold (skip_blanks (buf p) (pos p)) in G, U.
    destruct (at_line_end _ _); intros H; injection H as _ <-;
      unfold position_kept; cbn; (split; [reflexivity|]); [lia|].
    match goal with |- _ <= scan ?f ?s ?i <= _ =>
      pose proof (scan_ge f s i); pose proof (scan_le f s i U) end.
    lia.
Qed.

Lemma read_string2_position adv p ret q o :
  pos p <= String.length (buf p) ->
  read_string2 adv p = (ret, q, o) -> position_kept p q.
Proof.
  intros L; unfold read_string2.
  destruct (is_set (delim p)).
  - destruct (string_delim_blocked _).
    + intros H; injection H as _ <- _; apply position_kept_refl; exact L.
    + match goal with |- context [scan ?f ?s ?i] =>
        pose proof (scan_ge f s i) as G; pose proof (scan_le f s i L) as U;
        set (pos1 := scan f s i) in * end.
      destruct (Nat.ltb pos1 _ && _)%bool eqn:E;
        intros H; injection H as _ <- _; destruct adv;
        unfold position_kept; cbn; (split; [reflexivity|]); try lia.
      apply andb_true_iff in E as [E _]; apply Nat.ltb_lt in E; lia.
  - destruct (read_table_pre_check adv p) as [ok q0] eqn:P.
    pose proof (pre_check_position adv p ok q0 L P) as (B & K).
    destruct ok; cbn [negb].
    + match goal with |- context [scan ?f ?s ?i] =>
        pose proof (scan_ge f s i) as G;
        assert (U : scan f s i <= String.length s)
          by (apply scan_le; rewrite B; lia);
        set (pos1 := scan f s i) in * end.
      intros H; injection H as _ <- _; destruct adv;
        unfold position_kept; cbn; rewrite B in *; split; auto; lia.
    + intros H; injection H as _ <- _; split; assumption.
Qed.

Section Position.
Context {F : libc_double}.
Hypothesis within : strtod_within.

Lemma double_read_position adv p ret q o :
  pos p <= String.length (buf p) ->
  read_double adv p = (ret, q, o) -> position_kept p q.
Proof.
  intros L; unfold read_double.
  destruct (read_table_pre_check adv p) as [ok p1] eqn:P.
  apply pre_check_position in P; [|exact L].
  destruct ok; cbn [negb].
  - pose proof (within (buf p1) (pos p1)) as W.
    destruct (strtod (buf p1) (pos p1)) as [[d c2] e]; cbn [fst snd] in W.
    destruct (read_table_post_check c2 e p1) as [r2 p2] eqn:PC.
    apply post_check_position in PC;
      [|destruct P as (B & P), W as (W1 & W2); rewrite B in *; split; auto;
        apply W2; lia].
    assert (K : position_kept p p2) by (eapply position_kept_trans; eassumption).
    destruct (r2 && negb (allow_nan_inf p2))%bool;
      [destruct (isnan d || isinf d)%bool|];
      intros H; injection H as _ <- _; apply position_kept_restore; auto.
  - intros H; injection H as _ <- _; exact P.
Qed.

Lemma double_limits_read_position min max adv p ret q o :
  pos p <= String.length (buf p) ->
  read_double_limits min max adv p = (ret, q, o) -> position_kept p q.
Proof.
  intros L; unfold read_double_limits.
  destruct (read_table_pre_check adv p) as [ok p1] eqn:P.
  apply pre_check_position in P; [|exact L].
  destruct ok; cbn [negb].
  - pose proof (within (buf p1) (pos p1)) as W.
    destruct (strtod (buf p1) (pos p1)) as [[d c2] e]; cbn [fst snd] in W.
    destruct (read_table_post_check c2 e p1) as [r2 p2] eqn:PC.
    apply post_check_position in PC;
      [|destruct P as (B & P), W as (W1 & W2); rewrite B in *; split; auto;
        apply W2; lia].
    assert (K : position_kept p p2) by (eapply position_kept_trans; eassumption).
    destruct r2; [destruct (isnan d); [|destruct (negb _)]|];
      intros H; injection H as _ <- _; apply position_kept_restore; auto.
  - intros H; injection H as _ <- _; exact P.
Qed.

Lemma read_two_position first second adv p ret q o :
  (forall a p r q o, pos p <= String.length (buf p) ->
                     first a p = (r, q, o) -> position_kept p q) ->
  (forall a p r q o, pos p <= String.length (buf p) ->
                     second a p = (r, q, o) -> position_kept p q) ->
  pos p <= String.length (buf p) ->
  read_two first second adv p = (ret, q, o) -> position_kept p q.
Proof.
  intros H1 H2 L; unfold read_two.
  destruct (first true p) as [[r1 p1] x] eqn:A.
  apply H1 in A; [|exact L].
  destruct r1; cbn [negb].
  - destruct (second true p1) as [[r2 p2] y] eqn:B.
    apply H2 in B; [|destruct A as (-> & A); lia].
    intros H; injection H as _ <- _.
    apply position_kept_restore; eapply position_kept_trans; eassumption.
  - intros H; injection H as _ <- _. apply position_kept_restore; exact A.
Qed.

Lemma read_next_kept (op : read_op) adv p ret q o :
  pos p <= String.length (buf p) ->
  read_next op adv p = (ret, q, o) ->
  position_kept p q.
Proof.
  intros L; destruct op; cbn [read_next].
  - intros H; apply as_value_inv in H as (o' & H & _).
    eapply int_read_position; eassumption.
  - intros H; apply as_value_inv in H as (o' & H & _).
    eapply int_read_position; eassumption.
  - intros H; apply as_value_inv in H as (o' & H & _).
    eapply double_read_position; eassumption.
  - intros H; apply as_value_inv in H as (o' & H & _).
    eapply double_limits_read_position; eassumption.
  - apply read_two_position; auto; intros *; apply double_read_position.
  - apply read_two_position; auto; intros *; apply double_limits_read_position.
  - intros H; apply as_value_inv in H as (o' & H & _).
    unfold read_string in H.
    destruct (read_string2 adv p) as [[r2 q2] o2] eqn:S2.
    injection H as _ <- _. eapply read_string2_position; eassumption.
  - intros H; apply as_value_inv in H as (o' & H & _).
    unfold read_string_view in H.
    destruct (read_string2 adv p) as [[r2 q2] o2] eqn:S2.
    injection H as _ <- _. eapply read_string2_position; eassumption.
  - destruct (read_skip p) as [r q'] eqn:S.
    intros H; injection H as _ <- _. eapply read_skip_position; eassumption.
Qed.

(** X1: every operation of [read_next], advancing or not, leaves [pos] inside
    the line buffer and never moves it backwards. *)
Theorem read_next_position (op : read_op) adv p ret q o :
  pos p <= String.length (buf p) ->
  read_next op adv p = (ret, q, o) ->
  buf q = buf p /\ pos p <= pos q <= String.length (buf q).
Proof.
  intros L R; destruct (read_next_kept op adv p ret q o L R) as (B & K).
  rewrite B; auto.
Qed.

(** X2: the same for a whole [read]: whatever it returns, the cursor stands
    at or after where it stood, inside the line. *)
Theorem read_position ops p ret q outs :
  pos p <= String.length (buf p) ->
  read ops p = (ret, q, outs) ->
  position_kept p q.
Proof.
  revert p ret q outs; induction ops as [|op ops IH]; intros p ret q outs L.
  - cbn; intros H; injection H as _ <- _; apply position_kept_refl; exact L.
  - rewrite read_cons.
    destruct (read_next op true p) as [[r1 p1] o] eqn:R.
    apply read_next_kept in R; [|exact L].
    destruct r1.
    + destruct (read ops p1) as [[r2 p2] os] eqn:R2.
      apply IH in R2; [|destruct R as (-> & R); lia].
      intros H; injection H as _ <- _.
      eapply position_kept_trans; eassumption.
    + intros H; injection H as _ <- _; exact R.
Qed.

End Position.

(** ** The error a failed read leaves *)

Lemma blocked_kinds e :
  pre_check_blocked e = true -> e = T_EOL \/ unrecoverable e = true.
Proof. destruct e; simpl; auto; discriminate. Qed.

Lemma pre_check_failed adv p q :
  read_table_pre_check adv p = (false, q) -> failed_properly p false q.
Proof.
  intros P _. apply pre_check_false in P as (_ & _ & _ & K).
  destruct K as [[-> B]|[_ [E|[E _]]]].
  - destruct (blocked_kinds _ B) as [E|U]; [left; rewrite E|right]; auto.
  - left; rewrite E; reflexivity.
  - left; rewrite E; reflexivity.
Qed.

Lemma failed_properly_restore adv p ret q :
  failed_properly p ret q -> failed_properly p ret (restore_pos adv (pos p) q).
Proof.
  intros H R; destruct (H R) as [E|[-> U]].
  - left; rewrite restore_pos_error; exact E.
  - right; split; [destruct adv; [reflexivity|apply with_pos_same]|exact U].
Qed.

Lemma int_read_failed k min max adv p ret q o :
  read_int_limits k min max adv p = (ret, q, o) -> failed_properly p ret q.
Proof.
  rewrite read_int_limits_eq.
  destruct (read_table_pre_check adv p) as [[] p1] eqn:P; cbn [negb].
  - destruct (convert_and_check k min max p1) as [[r p3] i] eqn:C.
    apply convert_and_check_frame in C as (_ & _ & _ & KO).
    intros H; injection H as <- <- _. intros R; left.
    rewrite restore_pos_error. destruct (KO R) as [E|E]; rewrite E; reflexivity.
  - intros H; injection H as <- <- _. eapply pre_check_failed; exact P.
Qed.

Section FailureKinds.
Context {F : libc_double}.

Lemma double_read_failed adv p ret q o :
  read_double adv p = (ret, q, o) -> failed_properly p ret q.
Proof.
  unfold read_double.
  destruct (read_table_pre_check adv p) as [[] p1] eqn:P; cbn [negb].
  - destruct (strtod (buf p1) (pos p1)) as [[d c2] e].
    destruct (read_table_post_check c2 e p1) as [[] p2] eqn:PC.
    + destruct (negb (allow_nan_inf p2)); cbn [andb];
        [destruct (isnan d || isinf d)%bool|];
        intros H; injection H as <- <- _; intros R; try discriminate R.
      left; rewrite restore_pos_error; reflexivity.
    + apply post_check_false in PC as (_ & _ & E).
      cbn [andb]; intros H; injection H as <- <- _; intros _; left.
      rewrite restore_pos_error; destruct E as [E|E]; rewrite E; reflexivity.
  - intros H; injection H as <- <- _. eapply pre_check_failed; exact P.
Qed.

Lemma double_limits_read_failed min max adv p ret q o :
  read_double_limits min max adv p = (ret, q, o) -> failed_properly p ret q.
Proof.
  unfold read_double_limits.
  destruct (read_table_pre_check adv p) as [[] p1] eqn:P; cbn [negb].
  - destruct (strtod (buf p1) (pos p1)) as [[d c2] e].
    destruct (read_table_post_check c2 e p1) as [[] p2] eqn:PC.
    + destruct (isnan d); [|destruct (negb _)];
        intros H; injection H as <- <- _; intros R; try discriminate R;
        left; rewrite restore_pos_error; reflexivity.
    + apply post_check_false in PC as (_ & _ & E).
      intros H; injection H as <- <- _; intros _; left.
      rewrite restore_pos_error; destruct E as [E|E]; rewrite E; reflexivity.
  - intros H; injection H as <- <- _. eapply pre_check_failed; exact P.
Qed.

Lemma read_two_failed first second adv p ret q o :
  (forall a p r q o, first a p = (r, q, o) -> failed_properly p r q) ->
  (forall a p r q o, first a p = (r, q, o) -> outcome a 1 p r q) ->
  (forall a p r q o, second a p = (r, q, o) -> failed_properly p r q) ->
  read_two first second adv p = (ret, q, o) -> failed_properly p ret q.
Proof.
  intros H1 O1 H2; unfold read_two.
  destruct (first true p) as [[r1 p1] x] eqn:A.
  destruct r1; cbn [negb].
  - apply O1 in A as (_ & _ & _ & OK & _).
    destruct (second true p1) as [[r2 p2] y] eqn:B.
    apply H2 in B. intros H; injection H as <- <- _.
    intros R; left; rewrite restore_pos_error.
    destruct (B R) as [E|[-> U]]; [exact E|].
    rewrite (OK eq_refl) in U; discriminate U.
  - apply H1 in A. intros H; injection H as <- <- _.
    apply failed_properly_restore; exact A.
Qed.

(** X3: a read that returns failure never leaves [T_OK] (nor [T_TYPE])
    behind: it has set one of [T_EOL], [T_MISSING], [T_FORMAT],
    [T_OVERFLOW], [T_NAN], or it has found the cursor in an unrecoverable
    state and returned it untouched. *)
Theorem read_next_failure_error (op : read_op) adv p q o :
  read_next op adv p = (false, q, o) ->
  failure_error (last_error q) = true
  \/ (q = p /\ unrecoverable (last_error p) = true).
Proof.
  intros R. enough (failed_properly p false q) as H by (apply H; reflexivity).
  destruct op; cbn [read_next] in R.
  - apply as_value_inv in R as (o' & R & _); eapply int_read_failed; exact R.
  - apply as_value_inv in R as (o' & R & _); eapply int_read_failed; exact R.
  - apply as_value_inv in R as (o' & R & _); eapply double_read_failed; exact R.
  - apply as_value_inv in R as (o' & R & _).
    eapply double_limits_read_failed; exact R.
  - eapply read_two_failed; [| | |exact R]; intros *;
      first [apply double_read_failed|apply double_outcome].
  - eapply read_two_failed; [| | |exact R]; intros *;
      first [apply double_limits_read_failed|apply double_limits_outcome].
  - apply as_value_inv in R as (o' & R & _). unfold read_string in R.
    destruct (read_string2 adv p) as [[r2 q2] o2] eqn:S2.
    injection R as -> -> _. revert S2; unfold read_string2.
    destruct (is_set (delim p)).
    + destruct (string_delim_blocked (last_error p)) eqn:B; [|discriminate].
      intros H; injection H as <-; intros _.
      destruct (last_error p) eqn:E; try discriminate B; rewrite ?E; auto;
        right; rewrite E; auto.
    + destruct (read_table_pre_check adv p) as [[] q0] eqn:P; [discriminate|].
      intros H; injection H as <-. eapply pre_check_failed; exact P.
  - apply as_value_inv in R as (o' & R & _). unfold read_string_view in R.
    destruct (read_string2 adv p) as [[r2 q2] o2] eqn:S2.
    injection R as -> -> _. revert S2; unfold read_string2.
    destruct (is_set (delim p)).
    + destruct (string_delim_blocked (last_error p)) eqn:B; [|discriminate].
      intros H; injection H as <-; intros _.
      destruct (last_error p) eqn:E; try discriminate B; rewrite ?E; auto;
        right; rewrite E; auto.
    + destruct (read_table_pre_check adv p) as [[] q0] eqn:P; [discriminate|].
      intros H; injection H as <-. eapply pre_check_failed; exact P.
  - destruct (read_skip p) as [r q'] eqn:S. injection R as -> -> _.
    apply read_skip_outcome in S as (_ & _ & KO).
    intros _; left. destruct (KO eq_refl) as [-> _]; reflexivity.
Qed.

End FailureKinds.

(** ** The value a successful integer read stores *)

Lemma check_bounds_true res min max q q' o :
  check_bounds res min max q = (true, q', o) ->
  o = Some res /\ (min <= res <= max)%Z.
Proof.
  unfold check_bounds.
  destruct (Z.ltb_spec max res) as [A|A], (Z.ltb_spec res min) as [B|B];
    cbn [orb]; try discriminate.
  intros H; injection H as _ <-; split; [reflexivity|lia].
Qed.

(** X4: a bounded integer read that returns success has assigned a value
    within the bounds it was given; the unbounded forms use the range of
    the type. *)
Theorem int_read_within_bounds k min max adv p q o :
  read_int_limits k min max adv p = (true, q, o) ->
  exists v, o = Some v /\ (min <= v <= max)%Z.
Proof.
  rewrite read_int_limits_eq.
  destruct (read_table_pre_check adv p) as [[] p1]; cbn [negb]; [|discriminate].
  unfold convert_and_check.
  destruct (negb (start_ok k _)); [discriminate|].
  destruct (read_table_post_check _ _ p1) as [[] p2]; [|discriminate].
  destruct (check_bounds _ min max p2) as [[r p3] i] eqn:C.
  intros H; injection H as -> _ <-.
  apply check_bounds_true in C as (-> & B).
  rewrite andb_false_r. eauto.
Qed.

(** ** String fields and skipping *)

Lemma scan_moves stop s i :
  i < String.length s -> stop (char_at s i) = false -> i < scan stop s i.
Proof.
  intros L E; unfold scan.
  destruct (String.length s - i) as [|fuel] eqn:Fuel; [lia|].
  cbn [scan_loop]; rewrite E.
  pose proof (scan_loop_bounds stop s fuel (S i)); lia.
Qed.

(** X6: in whitespace mode the field a string read returns is not empty, lies
    in the buffer, starts at the first non-blank character, contains no
    blank, newline or comment character, and runs up to one (or to the
    end of the line). *)
Theorem string_field_whitespace adv p q first len :
  is_set (delim p) = false ->
  pos p <= String.length (buf p) ->
  read_string2 adv p = (true, q, Some (first, len)) ->
  first = skip_blanks (buf p) (pos p)
  /\ 0 < len
  /\ first + len <= String.length (buf p)
  /\ (forall i, i < len -> ends_field p (char_at (buf p) (first + i)) = false)
  /\ (first + len < String.length (buf p) ->
      ends_field p (char_at (buf p) (first + len)) = true).
Proof.
  intros D L; unfold read_string2; rewrite D.
  destruct (read_table_pre_check adv p) as [[] q0] eqn:P; cbn [negb];
    [|discriminate].
  apply pre_check_true in P as (-> & _ & A & _).
  cbn [with_pos buf pos] in *.
  set (i := skip_blanks (buf p) (pos p)) in *.
  fold (ends_field p).
  assert (Li : i <= String.length (buf p)) by (apply scan_le; exact L).
  pose proof (at_line_end_inside p i A) as Ni.
  assert (Bi : is_blank (char_at (buf p) i) = false).
  { apply negb_true_iff. apply (scan_stopped (fun c => negb (is_blank c))).
    fold (skip_blanks (buf p) (pos p)); fold i; lia. }
  assert (Ei : ends_field p (char_at (buf p) i) = false).
  { unfold ends_field, at_line_end in *. rewrite Bi; cbn [orb].
    apply orb_false_iff in A as [A1 A2]. apply orb_false_iff in A1 as [_ A1].
    rewrite A1, A2; reflexivity. }
  pose proof (scan_moves (ends_field p) (buf p) i ltac:(lia) Ei) as M.
  pose proof (scan_le (ends_field p) (buf p) i Li) as U.
  set (e := scan (ends_field p) (buf p) i) in *.
  intros H; injection H as _ <- <-.
  replace (i + (e - i)) with e by lia.
  repeat split; try lia.
  - intros j Lj. apply (scan_passed (ends_field p) (buf p) i); fold e; lia.
  - intros Le. apply (scan_stopped (ends_field p) (buf p) i); exact Le.
Qed.

Lemma string_field_whitespace_witness :
  0 = skip_blanks "abc def" 0 /\ 0 < 3 /\ 0 + 3 <= 7
  /\ (forall i, i < 3 ->
      ends_field (new_line_parser "abc def") (char_at "abc def" (0 + i)) = false)
  /\ (0 + 3 < 7 ->
      ends_field (new_line_parser "abc def") (char_at "abc def" (0 + 3)) = true).
Proof.
  apply (string_field_whitespace true (new_line_parser "abc def")
           (mk_line_parser "abc def" 3 0 10 T_OK NUL NUL true) 0 3);
    [reflexivity|cbn; lia|reflexivity].
Defined.

(** X7: in delimiter mode the field starts where the cursor stands and may be
    empty; it contains no delimiter, newline or comment character.  When
    a delimiter follows, an advancing read steps over it; when none
    follows, the read still succeeds and marks the cursor with [T_EOL]. *)
Theorem string_field_delimited adv p q first len :
  is_set (delim p) = true ->
  pos p <= String.length (buf p) ->
  read_string2 adv p = (true, q, Some (first, len)) ->
  first = pos p
  /\ first + len <= String.length (buf p)
  /\ (forall i, i < len ->
      ends_delimited p (char_at (buf p) (first + i)) = false)
  /\ (if Nat.ltb (first + len) (String.length (buf p))
         && Ascii.eqb (char_at (buf p) (first + len)) (delim p)
      then last_error q = last_error p
           /\ pos q = (if adv then S (first + len) else pos p)
      else last_error q = T_EOL
           /\ pos q = (if adv then first + len else pos p)).
Proof.
  intros D L; unfold read_string2; rewrite D.
  destruct (string_delim_blocked (last_error p)); [discriminate|].
  fold (ends_delimited p).
  pose proof (scan_ge (ends_delimited p) (buf p) (pos p)) as G.
  pose proof (scan_le (ends_delimited p) (buf p) (pos p) L) as U.
  set (e := scan (ends_delimited p) (buf p) (pos p)) in *.
  intros H; injection H as <- <- <-.
  replace (pos p + (e - pos p)) with e by lia.
  repeat split; try lia.
  - intros j Lj.
    apply (scan_passed (ends_delimited p) (buf p) (pos p)); fold e; lia.
  - destruct (Nat.ltb e _ && _)%bool; destruct adv; split; reflexivity.
Qed.

Lemma string_field_delimited_witness :
  let p := set_delim ","%char (new_line_parser "ab,,c") in
  let q := mk_line_parser "ab,,c" 3 0 10 T_OK ","%char NUL true in
  0 = pos p /\ 0 + 2 <= String.length (buf p)
  /\ (forall i, i < 2 -> ends_delimited p (char_at (buf p) (0 + i)) = false)
  /\ (if Nat.ltb (0 + 2) (String.length (buf p))
         && Ascii.eqb (char_at (buf p) (0 + 2)) (delim p)
      then last_error q = last_error p /\ pos q = (if true then S (0 + 2) else pos p)
      else last_error q = T_EOL /\ pos q = (if true then 0 + 2 else pos p)).
Proof.
  apply (string_field_delimited true
           (set_delim ","%char (new_line_parser "ab,,c"))
           (mk_line_parser "ab,,c" 3 0 10 T_OK ","%char NUL true) 0 2);
    [reflexivity|cbn; lia|reflexivity].
Defined.

(** X8: in whitespace mode, on a cursor that can be read, [read_skip] passes
    over exactly the field that a string read would return: the two agree
    on success and on the position they reach. *)
Theorem skip_passes_string_field p :
  is_set (delim p) = false ->
  pre_check_blocked (last_error p) = false ->
  fst (read_skip p) = fst (fst (read_string2 true p))
  /\ pos (snd (read_skip p)) = pos (snd (fst (read_string2 true p))).
Proof.
  intros D B; unfold read_skip, read_string2; rewrite D.
  rewrite pre_check_cases; cbn zeta; rewrite B, D; cbn [andb].
  change (at_line_end (with_pos (skip_blanks (buf p) (pos p)) p))
    with (at_line_end p).
  destruct (at_line_end p _); split; reflexivity.
Qed.

Lemma skip_passes_string_field_witness :
  fst (read_skip (new_line_parser " ab cd"))
  = fst (fst (read_string2 true (new_line_parser " ab cd")))
  /\ pos (snd (read_skip (new_line_parser " ab cd")))
     = pos (snd (fst (read_string2 true (new_line_parser " ab cd")))).
Proof.
  apply (skip_passes_string_field (new_line_parser " ab cd")); reflexivity.
Defined.

(** X9: in delimiter mode [read_skip] succeeds exactly when a delimiter occurs
    at or after the cursor, and then stops right behind the first one:
    the last field of a line cannot be skipped. *)
Theorem skip_needs_delimiter p :
  is_set (delim p) = true ->
  pos p <= String.length (buf p) ->
  (fst (read_skip p) = true <->
   exists i, pos p <= i < String.length (buf p)
             /\ char_at (buf p) i = delim p)
  /\ (fst (read_skip p) = true ->
      char_at (buf p) (pos (snd (read_skip p)) - 1) = delim p
      /\ forall j, pos p <= j < pos (snd (read_skip p)) - 1 ->
                   char_at (buf p) j <> delim p)
  /\ (fst (read_skip p) = false -> last_error (snd (read_skip p)) = T_EOL).
Proof.
  intros D L; unfold read_skip; rewrite D.
  set (stop := fun c => Ascii.eqb c (delim p)).
  pose proof (scan_ge stop (buf p) (pos p)) as G.
  pose proof (scan_le stop (buf p) (pos p) L) as U.
  pose proof (scan_stopped stop (buf p) (pos p)) as St.
  pose proof (scan_passed stop (buf p) (pos p)) as Pa.
  set (e := scan stop (buf p) (pos p)) in *.
  destruct (Nat.eqb e (String.length (buf p))) eqn:E; cbn [fst snd].
  - apply Nat.eqb_eq in E. split; [split|split]; try discriminate; auto.
    intros (i & Li & Ci). specialize (Pa i ltac:(lia)).
    unfold stop in Pa; rewrite Ci, Ascii.eqb_refl in Pa; discriminate.
  - apply Nat.eqb_neq in E. specialize (St ltac:(lia)).
    unfold stop in St; apply Ascii.eqb_eq in St.
    split; [split; [intros _; exists e; split; [lia|exact St]|reflexivity]|].
    split; [|discriminate]. intros _; cbn [with_error with_col with_pos pos].
    replace (S e - 1) with e by lia. split; [exact St|].
    intros j Lj Cj. specialize (Pa j Lj).
    unfold stop in Pa; rewrite Cj, Ascii.eqb_refl in Pa; discriminate.
Qed.

Lemma skip_needs_delimiter_witness :
  let p := set_delim ","%char (new_line_parser "1,2") in
  (fst (read_skip p) = true <->
   exists i, pos p <= i < String.length (buf p)
             /\ char_at (buf p) i = delim p).
Proof.
  apply (skip_needs_delimiter (set_delim ","%char (new_line_parser "1,2")));
    [reflexivity|cbn; lia].
Defined.

Example skip_last_delimited_field_fails :
  read_skip (mk_line_parser "1,2" 2 1 10 T_OK ","%char NUL true)
  = (false, mk_line_parser "1,2" 3 1 10 T_EOL ","%char NUL true).
Proof. reflexivity. Qed.

(** ** Cursors that refuse to be read *)

Section Blocked.
Context {F : libc_double}.

(** X10: on a cursor whose error is one of those the pre-check refuses
    ([T_EOF], [T_EOL], [T_COPIED], [T_READ_ERROR], [T_ERROR_FOPEN]) every
    numeric read returns failure and the cursor as it was; on the four of
    them that the string reader refuses in delimiter mode too (all but
    [T_COPIED]) every string read does the same, in both modes.  So once
    the end of the line has been reported, or marked by a string read of
    the last delimited field, nothing but a skip or a reset gets past
    it. *)
Theorem blocked_cursor_rejects_reads (op : read_op) adv p :
  (pre_check_blocked (last_error p) = true -> is_numeric op = true ->
   exists o, read_next op adv p = (false, p, o))
  /\ (string_delim_blocked (last_error p) = true -> op <> op_skip ->
      exists o, read_next op adv p = (false, p, o)).
Proof.
  assert (Num : pre_check_blocked (last_error p) = true ->
                is_numeric op = true ->
                exists o, read_next op adv p = (false, p, o)).
  { intros B N. destruct (read_next op adv p) as [[r q] o] eqn:R.
    apply numeric_outcome in R as (_ & _ & _ & _ & _ & K); [|exact N].
    destruct (K B) as [-> ->]; eauto. }
  split; [exact Num|].
  intros B NS. destruct (op_classes op) as [N|[S| ->]]; [| |contradiction].
  - apply Num; [|exact N].
    destruct (last_error p); try discriminate B; reflexivity.
  - assert (B' : pre_check_blocked (last_error p) = true)
      by (destruct (last_error p); try discriminate B; reflexivity).
    destruct op; try discriminate S; cbn [read_next];
      unfold read_string, read_string_view, read_string2;
      rewrite B, (pre_check_blocked_noop adv p B');
      destruct (is_set (delim p)); cbn; eauto.
Qed.

End Blocked.

Lemma blocked_cursor_rejects_reads_witness :
  let q := mk_line_parser "a,b" 2 0 10 T_EOL ","%char NUL true in
  exists o, read_next (F := integral_double) op_string true q = (false, q, o).
Proof.
  apply (blocked_cursor_rejects_reads (F := integral_double) op_string true
           (mk_line_parser "a,b" 2 0 10 T_EOL ","%char NUL true));
    [reflexivity|discriminate].
Defined.

(** ** A peek tells what the read will do *)

Lemma view_eq p p' :
  view p = view p' ->
  p' = with_error (last_error p') (with_col (col p') p).
Proof.
  destruct p, p'; unfold view; cbn.
  intros H; injection H as -> -> -> -> -> ->; reflexivity.
Qed.

(** The post-check does not look at [col] or [last_error]. *)
Lemma post_check_view c2 e p p' :
  view p = view p' ->
  fst (read_table_post_check c2 e p) = fst (read_table_post_check c2 e p')
  /\ view (snd (read_table_post_check c2 e p))
     = view (snd (read_table_post_check c2 e p'))
  /\ last_error (snd (read_table_post_check c2 e p))
     = last_error (snd (read_table_post_check c2 e p')).
Proof.
  intros V; rewrite (view_eq p p' V).
  generalize (last_error p') (col p'); intros e' c'.
  unfold read_table_post_check.
  cbn [with_error with_col pos buf delim].
  destruct e; try (repeat split; fail);
    destruct (Nat.eqb c2 (pos p)); try (repeat split; fail).
  destruct (blanks_loop _ _ _ _) as [pos1 hb].
  rewrite (at_line_end_frame (with_error T_OK (with_pos pos1 p))
             (with_error T_OK (with_pos pos1 (with_error e' (with_col c' p))))
             pos1 eq_refl eq_refl).
  destruct (at_line_end _ _); [repeat split|].
  cbn [with_error with_col with_pos delim buf].
  destruct (negb (is_set (delim p)) && negb hb)%bool; [repeat split|].
  destruct (is_set (delim p)); [|repeat split].
  destruct (negb (Ascii.eqb _ _)); repeat split.
Qed.

Lemma check_bounds_view res min max q q' :
  view q = view q' -> last_error q = last_error q' ->
  fst (fst (check_bounds res min max q)) = fst (fst (check_bounds res min max q'))
  /\ snd (check_bounds res min max q) = snd (check_bounds res min max q')
  /\ last_error (snd (fst (check_bounds res min max q)))
     = last_error (snd (fst (check_bounds res min max q'))).
Proof.
  intros V E; unfold check_bounds.
  destruct (_ || _)%bool; cbn; auto.
Qed.

Lemma convert_view k p p' : view p = view p' -> convert k p = convert k p'.
Proof.
  unfold view; intros H; injection H as B P Ba _ _ _.
  unfold convert; rewrite B, P, Ba; reflexivity.
Qed.

(** The conversion and its checks give the same answer, value and error
    on two cursors that differ in [col] and [last_error] only. *)
Lemma convert_and_check_view k min max p p' :
  view p = view p' ->
  fst (fst (convert_and_check k min max p))
  = fst (fst (convert_and_check k min max p'))
  /\ snd (convert_and_check k min max p) = snd (convert_and_check k min max p')
  /\ last_error (snd (fst (convert_and_check k min max p)))
     = last_error (snd (fst (convert_and_check k min max p'))).
Proof.
  intros V; unfold convert_and_check.
  rewrite <- (convert_view k p p' V).
  assert (B : buf p' = buf p /\ pos p' = pos p)
    by (unfold view in V; injection V as -> -> _ _ _ _; auto).
  destruct B as [-> ->].
  destruct (negb (start_ok k _)); [cbn; auto|].
  destruct (post_check_view (conv_end (convert k p)) (conv_errno (convert k p))
              p p' V) as (R & V2 & E2).
  destruct (read_table_post_check _ _ p) as [r p2],
           (read_table_post_check _ _ p') as [r' p2'];
    cbn [fst snd] in *; subst r'.
  destruct r; [|cbn; auto].
  apply check_bounds_view; assumption.
Qed.

Lemma pre_check_passes_again p p1 p3 :
  read_table_pre_check false p = (true, p1) ->
  same_line p1 p3 ->
  pre_check_blocked (last_error p3) = false ->
  read_table_pre_check true (with_pos (pos p) p3)
  = (true, with_pos (pos p1) p3).
Proof.
  intros P SL NB. apply pre_check_true in P as (-> & _ & A & Dl).
  cbn [with_pos pos] in *.
  destruct SL as (B & _ & D & C & _); cbn [with_pos buf delim comment] in *.
  rewrite pre_check_cases; cbn zeta.
  cbn [with_pos last_error buf pos delim]; rewrite NB, B, D.
  rewrite (at_line_end_frame p (with_pos (pos p) p3) _ B C), A, Dl.
  destruct p3; reflexivity.
Qed.

(** X12: a peek at an integer field followed by the read itself: the read
    returns what the peek returned and assigns the same value. *)
Theorem peek_then_read_int k min max p ret q o :
  read_int_limits k min max false p = (ret, q, o) ->
  exists q', read_int_limits k min max true q = (ret, q', o).
Proof.
  rewrite !read_int_limits_eq.
  destruct (read_table_pre_check false p) as [ok p1] eqn:P.
  destruct ok; cbn [negb].
  - destruct (convert_and_check k min max p1) as [[r p3] i] eqn:C.
    intros H; injection H as <- <- <-.
    pose proof (convert_and_check_frame _ _ _ _ _ _ _ C) as (SL & _ & OK & KO).
    assert (NB : pre_check_blocked (last_error p3) = false).
    { destruct r; [rewrite (OK eq_refl); reflexivity|].
      destruct (KO eq_refl) as [E|E]; rewrite E; reflexivity. }
    cbn [restore_pos].
    rewrite (pre_check_passes_again p p1 p3 P SL NB); cbn [negb].
    assert (V : view p1 = view (with_pos (pos p1) p3)).
    { destruct SL as (B & Ba & D & Cm & N); unfold view; cbn.
      rewrite B, Ba, D, Cm, N; reflexivity. }
    destruct (convert_and_check_view k min max _ _ V) as (R & O & _).
    rewrite C in R, O; cbn [fst snd] in R, O.
    destruct (convert_and_check k min max (with_pos (pos p1) p3))
      as [[r' p3'] i']; cbn [fst snd] in R, O; subst r' i'.
    eexists; reflexivity.
  - intros H; injection H as <- <- <-.
    rewrite pre_check_cases in P; cbn zeta in P.
    destruct (pre_check_blocked (last_error p)) eqn:B.
    + injection P as <-. rewrite pre_check_blocked_noop by exact B.
      cbn; eauto.
    + destruct (at_line_end p (skip_blanks (buf p) (pos p))) eqn:A.
      * injection P as <-. rewrite pre_check_blocked_noop by reflexivity.
        cbn; eauto.
      * destruct (is_set (delim p) && _)%bool eqn:D; [|discriminate].
        injection P as <-.
        rewrite pre_check_cases; cbn zeta.
        cbn [with_error with_pos last_error buf pos delim pre_check_blocked].
        change (at_line_end (with_error T_MISSING (with_pos (pos p) p)))
          with (at_line_end p).
        rewrite A, D. cbn; eauto.
Qed.

Lemma peek_then_read_int_witness :
  exists q', read_int_limits I32 0 10 true
               (mk_line_parser "42 7" 0 1 10 T_OVERFLOW NUL NUL true)
             = (false, q', Some 10%Z).
Proof.
  apply (peek_then_read_int I32 0 10 (new_line_parser "42 7")); reflexivity.
Defined.

(** ** Reading a line in several calls *)

Section Append.
Context {F : libc_double}.

(** X13: [read] of two lists of operations one after the other is [read] of
    the first list followed, when that succeeds, by [read] of the second
    on the cursor it left; the values are those of both, in order. *)
Theorem read_app (ops1 ops2 : list read_op) p :
  read (ops1 ++ ops2)%list p =
    let '(ret, p1, outs1) := read ops1 p in
    if ret then
      let '(ret', p2, outs2) := read ops2 p1 in
      (ret', p2, (outs1 ++ outs2)%list)
    else (false, p1, outs1).
Proof.
  revert p; induction ops1 as [|op ops1 IH]; intros p.
  - cbn. destruct (read ops2 p) as [[r q] os]; reflexivity.
  - change ((op :: ops1) ++ ops2)%list with (op :: (ops1 ++ ops2))%list.
    rewrite !read_cons.
    destruct (read_next op true p) as [[[] p1] o]; [|reflexivity].
    rewrite IH. destruct (read ops1 p1) as [[[] p2] os1]; [|reflexivity].
    destruct (read ops2 p2) as [[r q] os2]; reflexivity.
Qed.

End Append.

(** ** Text and parameters are never touched *)

Lemma get_params_same_line p q : same_line p q -> get_params q = get_params p.
Proof.
  intros (_ & B & D & C & N); unfold get_params; rewrite B, D, C, N; reflexivity.
Qed.

(** X15: a parser built from parameters and a text gives these parameters back,
    and after any [read] on it, successful or not, it still holds the same
    text and parameters; the column has grown by no more than the number
    of fields the operations can convert. *)
Theorem read_keeps_line_and_params {F : libc_double}
        (par : line_parser_params) (text : string) (ops : list read_op)
        ret q outs :
  read ops (line_parser_from par text) = (ret, q, outs) ->
  get_params (line_parser_from par text) = par
  /\ get_params q = par /\ buf q = text
  /\ col q <= list_sum (map fields ops).
Proof.
  intros R. apply read_column_bound in R as (SL & C).
  assert (G : get_params (line_parser_from par text) = par)
    by (destruct par; reflexivity).
  split; [exact G|]. rewrite (get_params_same_line _ _ SL).
  split; [exact G|]. destruct SL as (-> & _). split; [reflexivity|].
  cbn in C; lia.
Qed.

Lemma read_keeps_line_and_params_witness :
  get_params (line_parser_from (mk_params 16 ","%char "#"%char false) "ff,x")
  = mk_params 16 ","%char "#"%char false
  /\ get_params (mk_line_parser "ff,x" 3 1 16 T_FORMAT ","%char "#"%char false)
     = mk_params 16 ","%char "#"%char false
  /\ buf (mk_line_parser "ff,x" 3 1 16 T_FORMAT ","%char "#"%char false) = "ff,x"
  /\ 1 <= list_sum (map (fields (F := integral_double))
                        [op_int U32; op_int U32]).
Proof.
  apply (read_keeps_line_and_params (F := integral_double)
           (mk_params 16 ","%char "#"%char false) "ff,x"
           [op_int U32; op_int U32] false
           (mk_line_parser "ff,x" 3 1 16 T_FORMAT ","%char "#"%char false)
           [Some (V_int 255); None]).
  reflexivity.
Defined.

(** ** A moved-from parser *)

(** X16: what is left of a parser after a move, by construction or by
    assignment, is the same object; [reset_pos] does not revive it, every
    numeric read on it fails and leaves it as it is, and so does
    [read_line] on a reader that holds it. *)
Theorem moved_from_is_unusable {F : libc_double} (op : read_op) adv
        garbage this lp0 skip s n :
  is_numeric op = true ->
  let src := snd (move_assign this lp0) in
  snd (move_construct garbage lp0) = src
  /\ last_error src = T_COPIED
  /\ reset_pos src = src
  /\ (exists o, read_next op adv src = (false, src, o))
  /\ read_line skip (mk_read_table2 src s n)
     = Some (false, mk_read_table2 src s n).
Proof.
  intros N src. repeat split.
  destruct (read_next op adv src) as [[r q] o] eqn:R.
  apply numeric_outcome in R as (_ & _ & _ & _ & _ & B); [|exact N].
  destruct B as [-> ->]; [reflexivity|eauto].
Qed.

Lemma moved_from_is_unusable_witness :
  let src := snd (move_assign (new_line_parser "") (new_line_parser "1 2")) in
  exists o, read_next (F := integral_double) (op_int I32) true src
            = (false, src, o).
Proof.
  apply (moved_from_is_unusable (F := integral_double) (op_int I32) true NUL
           (new_line_parser "") (new_line_parser "1 2") true
           (mk_istream "" false false) 0 eq_refl).
Defined.

(** ** What [read_line] delivers *)

Lemma take_line_unterminated l :
  no_newline l = true -> take_line l = (l, None).
Proof.
  induction l as [|c l IH]; cbn; [reflexivity|].
  intros H; apply andb_true_iff in H as [C N].
  apply negb_true_iff in C; rewrite C, (IH N); reflexivity.
Qed.

Lemma take_line_first l rest :
  no_newline l = true ->
  take_line (l ++ String NL rest) = (l, Some rest).
Proof.
  induction l as [|c l IH]; cbn; [reflexivity|].
  intros H; apply andb_true_iff in H as [C N].
  apply negb_true_iff in C; rewrite C, (IH N); reflexivity.
Qed.

Lemma length_app_newline l rest :
  String.length (l ++ String NL rest) = S (String.length l + String.length rest).
Proof. induction l as [|c l IH]; cbn; [reflexivity|rewrite IH; reflexivity]. Qed.

(** X18: without skipping, [read_line] on a good stream whose unread text
    starts with the line [l] and a newline delivers exactly [l], less one
    trailing carriage return if it has one, at position and column 0 with
    [T_OK]; the stream is left at the text behind the newline and the
    line counter goes up by one. *)
Theorem read_line_delivers_next_line r l rest :
  read_line_blocked (last_error (lp r)) = false ->
  eofbit (is_ r) = false -> failbit (is_ r) = false ->
  unread (is_ r) = l ++ String NL rest ->
  no_newline l = true ->
  read_line false r
  = Some (true,
          mk_read_table2
            (mk_line_parser (strip_line_ending l) 0 0 (base (lp r)) T_OK
                            (delim (lp r)) (comment (lp r))
                            (allow_nan_inf (lp r)))
            (mk_istream rest false false)
            (S (line r))).
Proof.
  intros B E Fl U N; unfold read_line, read_line_fuel.
  rewrite B, E, U, length_app_newline.
  cbn [read_line_loop]. unfold getline.
  rewrite E, Fl, U, (take_line_first l rest N); reflexivity.
Qed.

Lemma read_line_delivers_next_line_witness :
  read_line false
    (new_read_table2 (mk_istream ("1 2" ++ String NL "3 4") false false))
  = Some (true,
          mk_read_table2 (mk_line_parser "1 2" 0 0 10 T_OK NUL NUL true)
                         (mk_istream "3 4" false false) 1).
Proof.
  apply (read_line_delivers_next_line
           (new_read_table2 (mk_istream ("1 2" ++ String NL "3 4") false false))
           "1 2" "3 4"); reflexivity.
Defined.

(** X19: when no newline is left in the input, [read_line] reports the end of
    the input, with or without skipping: characters behind the last
    newline are put into the buffer but never delivered as a line. *)
Theorem read_line_drops_unterminated_line skip r :
  read_line_blocked (last_error (lp r)) = false ->
  eofbit (is_ r) = false -> failbit (is_ r) = false ->
  no_newline (unread (is_ r)) = true ->
  exists r1,
    read_line skip r = Some (false, r1)
    /\ last_error (lp r1) = T_EOF
    /\ buf (lp r1) = unread (is_ r)
    /\ line r1 = line r.
Proof.
  intros B E Fl N; unfold read_line, read_line_fuel.
  rewrite B, E. cbn [read_line_loop]. unfold getline.
  rewrite E, Fl, (take_line_unterminated _ N); cbn.
  eexists; repeat split.
Qed.

Lemma read_line_drops_unterminated_line_witness :
  exists r1,
    read_line true (new_read_table2 (mk_istream "7 8 9" false false))
    = Some (false, r1)
    /\ last_error (lp r1) = T_EOF
    /\ buf (lp r1) = "7 8 9"
    /\ line r1 = 0.
Proof.
  apply (read_line_drops_unterminated_line true
           (new_read_table2 (mk_istream "7 8 9" false false)));
    reflexivity.
Defined.

(** The loop leaves by [return false] only with [T_EOF] or
    [T_READ_ERROR]. *)
Lemma read_line_loop_false skip fuel r r1 :
  read_line_loop skip fuel r = Some (false, r1) ->
  last_error (lp r1) = T_EOF \/ last_error (lp r1) = T_READ_ERROR.
Proof.
  revert r; induction fuel as [|fuel IH]; intros r; [discriminate|].
  cbn [read_line_loop].
  destruct (getline (is_ r) (buf (lp r))) as [s1 b1].
  destruct (eofbit s1); [intros H; injection H as <-; auto|].
  destruct (failbit s1); [intros H; injection H as <-; auto|].
  destruct skip; [|discriminate].
  destruct (Nat.ltb _ _); [destruct (is_set _ && _)%bool; [|discriminate]|];
    apply IH.
Qed.

Section AfterReadLine.
Context {F : libc_double}.

(** X20: whenever [read_line] returns failure the cursor is in a state that
    cannot be recovered ([T_EOF], [T_READ_ERROR], [T_COPIED] or
    [T_ERROR_FOPEN]), so that [reset_pos] keeps it and every numeric read
    that follows fails without touching the cursor. *)
Theorem read_line_failure_is_final skip r r1 (op : read_op) adv :
  read_line skip r = Some (false, r1) ->
  is_numeric op = true ->
  unrecoverable (last_error (lp r1)) = true
  /\ reset_pos (lp r1) = lp r1
  /\ exists o, read_next op adv (lp r1) = (false, lp r1, o).
Proof.
  intros R N.
  assert (U : unrecoverable (last_error (lp r1)) = true).
  { revert R; unfold read_line.
    destruct (read_line_blocked (last_error (lp r))) eqn:B.
    - intros H; injection H as <-.
      destruct (last_error (lp r)); try discriminate B; reflexivity.
    - destruct (eofbit (is_ r)); [intros H; injection H as <-; reflexivity|].
      destruct (read_line_loop skip (read_line_fuel r) r)
        as [[[] r2]|] eqn:L; try discriminate.
      intros H; injection H as <-.
      destruct (read_line_loop_false _ _ _ _ L) as [E|E]; rewrite E; reflexivity. }
  split; [exact U|split].
  - unfold reset_pos; rewrite U; reflexivity.
  - destruct (read_next op adv (lp r1)) as [[ret q] o] eqn:R'.
    apply numeric_outcome in R' as (_ & _ & _ & _ & _ & B); [|exact N].
    destruct (B (unrecoverable_blocked _ U)) as [-> ->]; eauto.
Qed.

End AfterReadLine.

Lemma read_line_failure_is_final_witness :
  let r1 := mk_read_table2 (mk_line_parser "" 0 0 10 T_EOF NUL NUL true)
                           (mk_istream "" true true) 0 in
  unrecoverable (last_error (lp r1)) = true
  /\ reset_pos (lp r1) = lp r1
  /\ exists o, read_next (F := integral_double) (op_int I64) true (lp r1)
               = (false, lp r1, o).
Proof.
  apply (read_line_failure_is_final (F := integral_double) true
           (new_read_table2 (mk_istream "" false false))
           (mk_read_table2 (mk_line_parser "" 0 0 10 T_EOF NUL NUL true)
                           (mk_istream "" true true) 0)
           (op_int I64) true); reflexivity.
Defined.

Lemma pop_back_length s : String.length (pop_back s) = String.length s - 1.
Proof.
  induction s as [|c s IH]; [reflexivity|].
  destruct s as [|c' s']; [reflexivity|].
  change (pop_back (String c (String c' s')))
    with (String c (pop_back (String c' s'))).
  cbn [String.length] in *; rewrite IH; lia.
Qed.

Lemma strip_line_ending_length s :
  String.length s <= S (String.length (strip_line_ending s)).
Proof.
  unfold strip_line_ending.
  destruct (Nat.eqb _ 0); [lia|].
  destruct (Ascii.eqb _ NL); [rewrite pop_back_length; lia|].
  destruct (Ascii.eqb _ CR); [rewrite pop_back_length; lia|lia].
Qed.

(** What the loop of [read_line] has done when it leaves by [break]. *)
Lemma read_line_loop_true skip fuel r r1 :
  read_line_loop skip fuel r = Some (true, r1) ->
  line r < line r1
  /\ same_line (with_buf (buf (lp r1)) (lp r)) (lp r1)
  /\ col (lp r1) = col (lp r)
  /\ String.length (unread (is_ r1)) < String.length (unread (is_ r))
  /\ (if skip
      then has_data (lp r) (buf (lp r1))
           /\ pos (lp r1) = (if is_set (delim (lp r)) then 0
                             else skip_blanks (buf (lp r1)) 0)
      else pos (lp r1) = 0 /\ line r1 = S (line r)).
Proof.
  revert r; induction fuel as [|fuel IH]; intros r; [discriminate|].
  cbn [read_line_loop]. unfold getline.
  destruct (eofbit (is_ r) || failbit (is_ r))%bool.
  { cbn. destruct (eofbit (is_ r)); discriminate. }
  destruct (take_line (unread (is_ r))) as [l [rest|]] eqn:T;
    cbn [eofbit failbit]; [|discriminate].
  apply take_line_rest in T.
  destruct skip.
  - assert (Rec : forall p',
               get_params p' = get_params (lp r) -> col p' = col (lp r) ->
               read_line_loop true fuel
                 (mk_read_table2 p' (mk_istream rest false false) (S (line r)))
               = Some (true, r1) ->
               line r < line r1
               /\ same_line (with_buf (buf (lp r1)) (lp r)) (lp r1)
               /\ col (lp r1) = col (lp r)
               /\ String.length (unread (is_ r1))
                  < String.length (unread (is_ r))
               /\ has_data (lp r) (buf (lp r1))
               /\ pos (lp r1) = (if is_set (delim (lp r)) then 0
                                 else skip_blanks (buf (lp r1)) 0)).
    { intros p' SL C H. apply IH in H as (L1 & SL1 & C1 & U1 & K & P).
      cbn [line lp is_ unread] in *.
      unfold get_params in SL; cbn in SL; injection SL as Ba D Cm N.
      destruct SL1 as (B1 & Ba1 & D1 & Cm1 & N1); cbn in B1, Ba1, D1, Cm1, N1.
      split; [lia|split; [|split; [congruence|split; [lia|]]]].
      - repeat split; cbn; congruence.
      - unfold has_data in *; rewrite Cm in K; rewrite D in P; auto. }
    destruct (Nat.ltb (skip_blanks l 0) (String.length l)) eqn:Lt.
    + destruct (is_set _ && _)%bool eqn:Cm.
      * apply Rec; reflexivity.
      * clear IH Rec. intros H; injection H as <-.
        apply Nat.ltb_lt in Lt.
        destruct (is_set (delim (lp r))) eqn:Dl;
          cbn [lp line is_ unread with_pos with_buf buf pos col delim];
          rewrite ?Dl;
          (split; [lia|split; [repeat split|split; [reflexivity|]]]);
          (split; [lia|split; [split; [exact Lt|exact Cm]|reflexivity]]).
    + apply Rec; reflexivity.
  - clear IH. intros H; injection H as <-; cbn.
    split; [lia|split; [repeat split|split; [reflexivity|split; [lia|auto]]]].
Qed.

(** X21: a successful [read_line] leaves [T_OK], column 0, a position inside
    the buffer, the same parameters, a larger line number and a shorter
    input.  Without skipping it has read one line and stands at position
    0; with skipping the line it delivers held data before its line
    ending was stripped. *)
Theorem read_line_success_state skip r r1 :
  read_line skip r = Some (true, r1) ->
  last_error (lp r1) = T_OK /\ col (lp r1) = 0
  /\ pos (lp r1) <= String.length (buf (lp r1))
  /\ get_params (lp r1) = get_params (lp r)
  /\ line r < line r1
  /\ String.length (unread (is_ r1)) < String.length (unread (is_ r))
  /\ (if skip
      then exists raw, buf (lp r1) = strip_line_ending raw
                       /\ has_data (lp r) raw
      else pos (lp r1) = 0 /\ line r1 = S (line r)).
Proof.
  unfold read_line.
  destruct (read_line_blocked _); [discriminate|].
  destruct (eofbit (is_ r)); [discriminate|].
  destruct (read_line_loop skip (read_line_fuel r) r) as [[[] r2]|] eqn:L;
    try discriminate.
  apply read_line_loop_true in L as (L1 & SL & C & U & K).
  intros H; injection H as <-; cbn [lp line is_ with_lp with_buf with_error
                                    with_col last_error col pos buf].
  pose proof (strip_line_ending_length (buf (lp r2))) as SLen.
  split; [reflexivity|split; [reflexivity|]].
  split; [|split; [|split; [exact L1|split; [exact U|]]]].
  - destruct skip.
    + destruct K as ((Lt & _) & P). rewrite P.
      destruct (is_set (delim (lp r))); lia.
    + destruct K as (-> & _); lia.
  - destruct SL as (_ & Ba & D & Cm & N); cbn in Ba, D, Cm, N.
    unfold get_params; cbn; rewrite Ba, D, Cm, N; reflexivity.
  - destruct skip; [|exact K].
    exists (buf (lp r2)); split; [reflexivity|apply K].
Qed.

Lemma read_line_success_state_witness :
  let r := with_lp (set_comment "#"%char (new_line_parser EmptyString))
             (new_read_table2
                (mk_istream ("# c" ++ String NL ("  " ++ String NL (" 1 2" ++ String NL "")))
                            false false)) in
  let r1 := mk_read_table2 (mk_line_parser " 1 2" 1 0 10 T_OK NUL "#"%char true)
                           (mk_istream "" false false) 3 in
  last_error (lp r1) = T_OK /\ col (lp r1) = 0
  /\ pos (lp r1) <= String.length (buf (lp r1))
  /\ get_params (lp r1) = get_params (lp r)
  /\ line r < line r1
  /\ String.length (unread (is_ r1)) < String.length (unread (is_ r))
  /\ exists raw, buf (lp r1) = strip_line_ending raw /\ has_data (lp r) raw.
Proof.
  apply (read_line_success_state true
           (with_lp (set_comment "#"%char (new_line_parser EmptyString))
              (new_read_table2
                 (mk_istream ("# c" ++ String NL ("  " ++ String NL (" 1 2" ++ String NL "")))
                             false false)))
           (mk_read_table2 (mk_line_parser " 1 2" 1 0 10 T_OK NUL "#"%char true)
                           (mk_istream "" false false) 3)).
  reflexivity.
Defined.

(** ** The properties above on concrete lines *)

Lemma integral_double_within : strtod_within (F := integral_double).
Proof. intros s i; exact (strtol_end s i 10). Qed.

Lemma read_next_position_witness :
  let p := mk_line_parser "1 2 x" 1 1 10 T_OK NUL NUL true in
  let q := mk_line_parser "1 2 x" 1 2 10 T_FORMAT NUL NUL true in
  buf q = buf p /\ pos p <= pos q <= String.length (buf q).
Proof.
  apply (read_next_position (F := integral_double) integral_double_within
           op_pair false
           (mk_line_parser "1 2 x" 1 1 10 T_OK NUL NUL true) false
           (mk_line_parser "1 2 x" 1 2 10 T_FORMAT NUL NUL true) None);
    [cbn; lia|reflexivity].
Defined.

Lemma read_position_witness :
  position_kept (set_delim ","%char (new_line_parser "1,,3"))
                (mk_line_parser "1,,3" 2 1 10 T_MISSING ","%char NUL true).
Proof.
  apply (read_position (F := integral_double) integral_double_within
           [op_int U32; op_int U32; op_int U32]
           (set_delim ","%char (new_line_parser "1,,3")) false
           (mk_line_parser "1,,3" 2 1 10 T_MISSING ","%char NUL true)
           [Some (V_int 1); None]);
    [cbn; lia|reflexivity].
Defined.

Lemma read_next_failure_error_witness :
  let q := mk_line_parser "12x 3" 2 0 10 T_FORMAT NUL NUL true in
  failure_error (last_error q) = true
  \/ (q = new_line_parser "12x 3"
      /\ unrecoverable (last_error (new_line_parser "12x 3")) = true).
Proof.
  apply (read_next_failure_error (F := integral_double) (op_int_bounds I16 0 50)
           true (new_line_parser "12x 3")
           (mk_line_parser "12x 3" 2 0 10 T_FORMAT NUL NUL true) None).
  reflexivity.
Defined.

Lemma int_read_within_bounds_witness :
  exists v, Some 4000%Z = Some v /\ (-3000 <= v <= 4000)%Z.
Proof.
  apply (int_read_within_bounds I16 (-3000) 4000 true
           (new_line_parser "4000 1")
           (mk_line_parser "4000 1" 5 1 10 T_OK NUL NUL true) (Some 4000%Z)).
  reflexivity.
Defined.

Lemma read_stops_at_first_failure_witness :
  exists done op rest p1 outs1 o,
    [op_int I32; op_int I32; op_skip]
    = (done ++ op :: rest)%list
    /\ read (F := integral_double) done (new_line_parser "5 x 7")
       = (true, p1, outs1)
    /\ read_next op true p1
       = (false, mk_line_parser "5 x 7" 2 1 10 T_FORMAT NUL NUL true, o)
    /\ [Some (V_int 5); None] = (outs1 ++ [o])%list.
Proof.
  apply (read_stops_at_first_failure (F := integral_double)
           [op_int I32; op_int I32; op_skip] (new_line_parser "5 x 7")
           (mk_line_parser "5 x 7" 2 1 10 T_FORMAT NUL NUL true)
           [Some (V_int 5); None]).
  reflexivity.
Defined.


(** ** Lines with too few fields *)

Section ShortLine.
Context {F : libc_double}.

(** X11: when nothing but blanks stands between the cursor and the end of the
    line, a newline or the comment character (an empty line, a line of
    blanks, a comment, or a line whose fields have all been read), every
    numeric read on a readable cursor fails with [T_EOL]. *)
Theorem short_line_is_eol (op : read_op) adv p :
  is_numeric op = true ->
  pre_check_blocked (last_error p) = false ->
  at_line_end p (skip_blanks (buf p) (pos p)) = true ->
  exists q o, read_next op adv p = (false, q, o) /\ last_error q = T_EOL.
Proof.
  intros N B A. apply numeric_read_pre_check_fails; [exact N|].
  intros a; rewrite pre_check_cases; cbn zeta; rewrite B, A.
  eexists; split; reflexivity.
Qed.

(** X5: a bounded read of a [double] that returns success has assigned a
    value that is not NaN and lies within the bounds; an unbounded one on
    a parser that does not admit NaN and infinity has assigned a value
    that is neither. *)
Theorem double_read_sound min max adv p q o :
  (read_double_limits min max adv p = (true, q, o) ->
   exists d, o = Some d /\ isnan d = false
             /\ double_le d max = true /\ double_le min d = true)
  /\ (read_double adv p = (true, q, o) -> allow_nan_inf p = false ->
      exists d, o = Some d /\ isnan d = false /\ isinf d = false).
Proof.
  split.
  - unfold read_double_limits.
    destruct (read_table_pre_check adv p) as [[] p1]; cbn [negb];
      [|discriminate].
    destruct (strtod (buf p1) (pos p1)) as [[d c2] e].
    destruct (read_table_post_check c2 e p1) as [[] p2]; [|discriminate].
    destruct (isnan d) eqn:I; [discriminate|].
    destruct (double_le d max && double_le min d)%bool eqn:B;
      cbn [negb]; [|discriminate].
    apply andb_true_iff in B as [B1 B2].
    intros H; injection H as _ <-; eauto.
  - unfold read_double.
    destruct (read_table_pre_check adv p) as [[] p1] eqn:P; cbn [negb];
      [|discriminate].
    apply pre_check_true in P as (-> & _).
    destruct (strtod _ _) as [[d c2] e].
    destruct (read_table_post_check c2 e _) as [[] p2] eqn:PC;
      [|discriminate].
    apply post_check_true in PC as (_ & _ & _ & SL & _).
    destruct SL as (_ & _ & _ & _ & N); cbn in N.
    intros H A; rewrite N, A in H; cbn [andb negb] in H.
    destruct (isnan d || isinf d)%bool eqn:I; [discriminate|].
    apply orb_false_iff in I as [I1 I2].
    injection H as _ <-; eauto.
Qed.

End ShortLine.

Lemma short_line_is_eol_witness :
  exists q o,
    read_next (F := integral_double) op_pair true
              (set_comment "#"%char (new_line_parser "   # no data"))
    = (false, q, o)
    /\ last_error q = T_EOL.
Proof.
  apply (short_line_is_eol (F := integral_double) op_pair true
           (set_comment "#"%char (new_line_parser "   # no data")));
    reflexivity.
Defined.

Lemma double_read_sound_witness :
  exists d, Some 12%Z = Some d /\ isnan (libc_double := integral_double) d = false
            /\ double_le (libc_double := integral_double) d 180%Z = true
            /\ double_le (libc_double := integral_double) (-180)%Z d = true.
Proof.
  apply (double_read_sound (F := integral_double) (-180)%Z 180%Z true
           (new_line_parser "12 5")
           (mk_line_parser "12 5" 3 1 10 T_OK NUL NUL true) (Some 12%Z)).
  reflexivity.
Defined.
